(** * EventDispatcher: a shallow embedding of src/utils/EventDispatcher.js

    The module implements a jQuery-like publish/subscribe mixin: listeners are
    attached with [on], detached with [off] and fired with [trigger]; events
    can be flagged with [markDeprecated].

    Conventions of the embedding

    - A JavaScript string is a [string]; each character stands for one UTF-16
      code unit below 256.
    - The two per-object tables ([_eventHandlers], [_deprecatedEvents]) are
      JavaScript objects used as string-keyed maps; they are [gmap string _].
      The maps hold the own properties: at a name that Object.prototype
      defines the code finds the inherited member instead, and the
      statements that depend on the lookup exclude these names (see
      [inherited]).
    - A handler is any JavaScript value; a function value is a reference
      [VFun f] and the behaviour of the function [f] is given by a parameter
      [body].  Handler bodies act on the rest of the program state (the
      [World]); they do not call back into the dispatcher of the object that
      is dispatching, and they do not assign to the event object, which the
      listeners of one dispatch share.  An object [VObj o] is an ordinary
      one: it has no [apply] method, and when it is thrown, its conversion
      to a string and its [stack] can be read.
    - Methods run in a state-and-exception monad [Js] over a [Machine]: the
      host object ([this]), the world, the console output and a ghost trace of
      the handler calls performed. *)

From Stdlib Require Import Ascii.
From stdpp Require Import base option numbers list strings gmap fin_maps.

(** ** JavaScript values *)

Inductive JsValue :=
| VUndefined
| VNull
| VBool (b : bool)
| VNum (n : Z)
| VStr (s : string)
| VFun (f : nat)       (* a function object, identified by reference *)
| VObj (o : nat).      (* another object (plain object, array, Error instance),
                          identified by reference *)

Global Instance JsValue_eq_dec : EqDecision JsValue.
Proof. solve_decision. Defined.

(** ToBoolean *)
Definition truthy (v : JsValue) : bool :=
  match v with
  | VUndefined | VNull => false
  | VBool b => b
  | VNum n => negb (n =? 0)%Z
  | VStr s => negb (bool_decide (s = ""))
  | VFun _ | VObj _ => true
  end.

(** [v1 === v2] on this fragment of values: same type and same primitive
    value, or same reference. *)
Definition strict_eq (v1 v2 : JsValue) : bool := bool_decide (v1 = v2).

(** A property that holds an optional string ([undefined] when absent). *)
Definition truthy_str (o : option string) : bool :=
  match o with
  | Some s => negb (bool_decide (s = ""))
  | None => false
  end.

(** What a [throw] carries: a value thrown by user code, or a TypeError
    instance raised by the engine. *)
Inductive exn :=
| Thrown (v : JsValue)
| TypeError.

Global Instance exn_eq_dec : EqDecision exn.
Proof. solve_decision. Defined.

(** ** Strings: [split(/\s+/)], [indexOf], [substring] *)

(** The code units below 256 matched by the regular expression class [\s]:
    TAB, LF, VT, FF, CR, SPACE and NO-BREAK SPACE. *)
Definition is_ws (c : ascii) : bool :=
  let n := nat_of_ascii c in
  (n =? 9) || (n =? 10) || (n =? 11) || (n =? 12) || (n =? 13) || (n =? 32) || (n =? 160).

(** [s.split(/\s+/)] (ES5 15.5.4.14): the substrings between the maximal runs
    of whitespace.  [in_sep] says that the previous character belonged to a
    separator, [tok] is the token read so far.  The empty string is not
    matched by the separator, so it splits into one empty token; whitespace
    at either end of the string yields an empty token at that end. *)
Fixpoint split_go (in_sep : bool) (tok : string) (s : string) : list string :=
  match s with
  | EmptyString => [tok]
  | String c s' =>
      if is_ws c then
        if in_sep then split_go true tok s'
        else tok :: split_go true "" s'
      else split_go false (tok +:+ String c "") s'
  end.

Definition split_ws (s : string) : list string := split_go false "" s.

(** [s.indexOf(".")], [None] standing for -1. *)
Fixpoint indexOf_dot (s : string) : option nat :=
  match s with
  | EmptyString => None
  | String c s' => if bool_decide (c = "."%char) then Some 0 else S <$> indexOf_dot s'
  end.

(** ** Handler records *)

(** The record built by [splitNs]; [on] later stores the callback in its
    [handler] property ([undefined] until then). *)
Record EventRec := {
  eventName : string;
  ns : option string;
  handler : JsValue
}.

Global Instance EventRec_eq_dec : EqDecision EventRec.
Proof. solve_decision. Defined.

Definition splitNs (eventStr : string) : EventRec :=
  match indexOf_dot eventStr with
  | None => {| eventName := eventStr; ns := None; handler := VUndefined |}
  | Some dot =>
      {| eventName := String.substring 0 dot eventStr;
         ns := Some (String.substring dot (String.length eventStr - dot) eventStr);
         handler := VUndefined |}
  end.

(** [eventsList[i].handler = fn] *)
Definition set_handler (rec : EventRec) (fn : JsValue) : EventRec :=
  {| eventName := eventName rec; ns := ns rec; handler := fn |}.

(** ** The host object *)

Record Host := {
  oid : nat;                                             (* identity of the object *)
  _eventHandlers : option (gmap string (list EventRec));
  _deprecatedEvents : option (gmap string JsValue)
}.

(** An object on which no dispatcher method has run yet. *)
Definition new_host (o : nat) : Host :=
  {| oid := o; _eventHandlers := None; _deprecatedEvents := None |}.

Definition set_eventHandlers (h : Host) (t : gmap string (list EventRec)) : Host :=
  {| oid := oid h; _eventHandlers := Some t; _deprecatedEvents := _deprecatedEvents h |}.

Definition set_deprecatedEvents (h : Host) (d : gmap string JsValue) : Host :=
  {| oid := oid h; _eventHandlers := _eventHandlers h; _deprecatedEvents := Some d |}.

(** The handler sequence of an event name, absent meaning empty. *)
Definition entries (h : Host) (name : string) : list EventRec :=
  default [] (_eventHandlers h ≫= (.!! name)).

(** ** Events, console, machine state *)

Record Event := { type : string; target : JsValue }.

(** How a call of a handler function ends; trigger ignores what it returns. *)
Inductive outcome :=
| Returned
| Threw (e : exn).

(** One call of a handler function, as [apply(null, applyArgs)] performs it:
    the callee, the event object and the extra arguments. *)
Record Invocation := { callee : nat; event : Event; extra : list JsValue }.

Inductive console_msg :=
| ConsoleWarn (message : string)
| ConsoleError (message : string) (obj : JsValue) (err : exn)
| ConsoleAssertFailed.

Record Machine (World : Type) := {
  this : Host;
  world : World;
  console : list console_msg;
  invoked : list Invocation
}.
Arguments this {World} _.
Arguments world {World} _.
Arguments console {World} _.
Arguments invoked {World} _.
Arguments Build_Machine {World} _ _ _ _.

Inductive completion (A : Type) :=
| Normal (a : A)
| Abrupt (e : exn).
Arguments Normal {A} _.
Arguments Abrupt {A} _.

(** ** The monad of method bodies *)

Definition Js (World A : Type) : Type :=
  Machine World → Machine World * completion A.

Section Monad.
Context {World : Type}.

Definition js_ret {A} (a : A) : Js World A := λ m, (m, Normal a).

Definition js_bind {A B} (c : Js World A) (k : A → Js World B) : Js World B :=
  λ m, match c m with
       | (m', Normal a) => k a m'
       | (m', Abrupt e) => (m', Abrupt e)
       end.

(** [throw e] *)
Definition throw {A} (e : exn) : Js World A := λ m, (m, Abrupt e).

(** [try { c } catch (err) { k err }] *)
Definition try_catch {A} (c : Js World A) (k : exn → Js World A) : Js World A :=
  λ m, match c m with
       | (m', Normal a) => (m', Normal a)
       | (m', Abrupt e) => k e m'
       end.

Definition get_this : Js World Host := λ m, (m, Normal (this m)).

Definition set_this (h : Host) : Js World unit :=
  λ m, (Build_Machine h (world m) (console m) (invoked m), Normal tt).

(** [console.warn], [console.error], [console.assert(false)] append to the
    console output. *)
Definition console_log (msgs : list console_msg) : Js World unit :=
  λ m, (Build_Machine (this m) (world m) (console m ++ msgs) (invoked m), Normal tt).
End Monad.

Global Instance Js_ret {World} : MRet (Js World) := @js_ret World.
Global Instance Js_bind {World} : MBind (Js World) := λ A B k c, js_bind c k.

(** The state and the completion of a run. *)
Definition exec {World A} (c : Js World A) (m : Machine World) : Machine World := (c m).1.
Definition result {World A} (c : Js World A) (m : Machine World) : completion A := (c m).2.

(** [events.split(/\s+/).map(splitNs)]: a string has the method [split]; on
    [undefined] and [null] the property access fails, on the other values
    of this fragment [split] is [undefined] and the call fails. *)
Definition split_events {World} (events : JsValue) : Js World (list EventRec) :=
  match events with
  | VStr s => mret (splitNs <$> split_ws s)
  | _ => throw TypeError
  end.

(** ** on *)

(** The message of one deprecation warning. *)
Definition deprecation_message (name : string) (deprecation : JsValue) : string :=
  let message := "Registering for deprecated event '" +:+ name +:+ "'." in
  match deprecation with
  | VStr instead => message +:+ " Use " +:+ instead +:+ " instead."
  | _ => message
  end.

(** First loop of [on]: one [console.warn] for each clause whose event name
    has a truthy entry in the deprecation table.  The lookup is the one of
    own properties (for the other names see [inherited]). *)
Definition deprecation_warnings (h : Host) (eventsList : list EventRec) : list console_msg :=
  match _deprecatedEvents h with
  | None => []
  | Some dep =>
      omap (λ rec,
              let deprecation := default VUndefined (dep !! eventName rec) in
              if truthy deprecation
              then Some (ConsoleWarn (deprecation_message (eventName rec) deprecation))
              else None)
           eventsList
  end.

(** One turn of the second loop of [on]: create the table and the list when
    they are missing, store [fn] in the clause and push it.  The lookup is
    the one of own properties: the table has a list under the event name or
    nothing (for the names where it has an inherited member see
    [inherited]). *)
Definition attach (fn : JsValue) (h : Host) (rec : EventRec) : Host :=
  let tbl := default ∅ (_eventHandlers h) in
  let handlerList := default [] (tbl !! eventName rec) in
  set_eventHandlers h (<[eventName rec := handlerList ++ [set_handler rec fn]]> tbl).

Definition on {World} (events fn : JsValue) : Js World JsValue :=
  eventsList ← split_events events;
  h ← get_this;
  console_log (deprecation_warnings h eventsList) ;;
  set_this (foldl (attach fn) h eventsList) ;;
  mret (VObj (oid h)).

(** ** off *)

(** The test of the backwards walk: namespace and callback only. *)
Definition matches (fn : JsValue) (eventRec rec : EventRec) : bool :=
  (negb (truthy_str (ns eventRec)) || bool_decide (ns eventRec = ns rec))
  && (negb (truthy fn) || strict_eq fn (handler rec)).

(** [for (k = handlerList.length - 1; k >= 0; k--)] with [splice(k, 1)]. The
    argument [n] counts the indices still to visit, the next one being
    [n - 1].  Removing index [k] moves only the entries above [k], so the
    index read is always in range. *)
Fixpoint walk_backwards (fn : JsValue) (eventRec : EventRec) (n : nat)
    (handlerList : list EventRec) : list EventRec :=
  match n with
  | 0 => handlerList
  | S k =>
      walk_backwards fn eventRec k
        (match handlerList !! k with
         | Some rec => if matches fn eventRec rec then delete k handlerList else handlerList
         | None => handlerList
         end)
  end.

(** The body of [removeAllMatches], on the table.  The lookup is the one of
    own properties (see [inherited]). *)
Definition removeAllMatches (fn : JsValue) (eventRec : EventRec) (name : string)
    (tbl : gmap string (list EventRec)) : gmap string (list EventRec) :=
  match tbl !! name with
  | None => tbl
  | Some handlerList =>
      let handlerList' := walk_backwards fn eventRec (length handlerList) handlerList in
      if length handlerList' =? 0 then delete name tbl
      else <[name := handlerList']> tbl
  end.

(** [_.forEach] visits the own keys of the table it was given; the visit of a
    key changes the entry of that key only, so the order of the visits is
    immaterial. *)
Definition doRemove (fn : JsValue) (tbl : gmap string (list EventRec)) (eventRec : EventRec)
    : gmap string (list EventRec) :=
  if negb (bool_decide (eventName eventRec = ""))
  then removeAllMatches fn eventRec (eventName eventRec) tbl
  else foldl (λ t name, removeAllMatches fn eventRec name t) tbl (map_to_list tbl).*1.

Definition off {World} (events fn : JsValue) : Js World JsValue :=
  eventsList ← split_events events;
  h ← get_this;
  match _eventHandlers h with
  | None => mret VUndefined
  | Some tbl =>
      set_this (set_eventHandlers h (foldl (doRemove fn) tbl eventsList)) ;;
      mret (VObj (oid h))
  end.

(** ** markDeprecated *)

(** [markDeprecated(obj, eventName, insteadStr)], [obj] being the host of the
    machine.  The assignment creates or overwrites an own property, as it
    does for every name but [__proto__]. *)
Definition markDeprecated {World} (name : string) (insteadStr : JsValue) : Js World JsValue :=
  h ← get_this;
  let dep := default ∅ (_deprecatedEvents h) in
  set_this (set_deprecatedEvents h
              (<[name := if truthy insteadStr then insteadStr else VBool true]> dep)) ;;
  mret VUndefined.

(** ** trigger *)

Section Dispatch.
Context {World : Type}.

(** The behaviour of the function objects: applied to the event object and
    the extra arguments, the function [f] changes the world and returns or
    throws. *)
Variable body : nat → Event → list JsValue → World → World * outcome.

(** [callee.apply(null, applyArgs)], [applyArgs] being the event object
    followed by the extra arguments.  Only a function has a callable
    [apply]. *)
Definition apply (callee : JsValue) (ev : Event) (args : list JsValue) : Js World unit :=
  match callee with
  | VFun f => λ m,
      let '(w, o) := body f ev args (world m) in
      (Build_Machine (this m) w (console m)
         (invoked m ++ [{| callee := f; event := ev; extra := args |}]),
       match o with
       | Returned => Normal tt
       | Threw e => Abrupt e
       end)
  | _ => throw TypeError
  end.

(** [err.stack]: reading a property of [null] or [undefined] raises a
    TypeError; the other values answer (the text they answer with is not
    modelled). *)
Definition get_stack (err : exn) : Js World unit :=
  match err with
  | Thrown VUndefined | Thrown VNull => throw TypeError
  | _ => mret tt
  end.

(** The catch block of [trigger].  The arguments of [console.error] are
    evaluated before the call: the message, [this], [String(err)] and
    [err.stack]. *)
Definition report (name : string) (h : Host) (err : exn) : Js World unit :=
  get_stack err;;
  console_log [ConsoleError ("Exception in '" +:+ name +:+ "' listener on") (VObj (oid h)) err];;
  console_log [ConsoleAssertFailed].

(** [for (i = start; i < start + n; i++) step(i)] *)
Fixpoint for_loop (n i : nat) (step : nat → Js World unit) : Js World unit :=
  match n with
  | 0 => mret tt
  | S n' => step i;; for_loop n' (S i) step
  end.

(** [trigger(eventName, ...)].  The list is looked up among the own
    properties of the table (see [inherited]); the listeners leave it as it
    is while the loop runs. *)
Definition trigger (name : string) (args : list JsValue) : Js World JsValue :=

  h ← get_this;
  let event := {| type := name; target := VObj (oid h) |} in
  match _eventHandlers h ≫= (.!! name) with
  | None => mret VUndefined
  | Some handlerList =>
      for_loop (length handlerList) 0 (λ i,
        try_catch
          (match handlerList !! i with
           | Some rec => apply (handler rec) event args
           | None => throw TypeError
           end)
          (report name h));;
      mret VUndefined
  end.
End Dispatch.

(** ** Notions used in the statements *)

(** A machine whose host is a new object. *)
Definition new_machine {World} (o : nat) (w : World) : Machine World :=
  {| this := new_host o; world := w; console := []; invoked := [] |}.

(** The clauses of a specification string. *)
Definition clauses (events : string) : list EventRec := splitNs <$> split_ws events.

(** The entries the walk of [removeAllMatches] keeps. *)
Definition kept (fn : JsValue) (eventRec rec : EventRec) : Prop :=
  matches fn eventRec rec = false.

Global Instance kept_dec fn eventRec rec : Decision (kept fn eventRec rec).
Proof. unfold kept. apply _. Defined.

(** A list that became empty loses its key. *)
Definition prune (l : list EventRec) : option (list EventRec) :=
  if length l =? 0 then None else Some l.

(** The clause [eventRec] of [off(_, fn)] removes the entry [rec] stored under
    the key [name]: the clause has no event name or names this key, and the
    walk over the list of the key finds a match. *)
Definition selects (fn : JsValue) (eventRec : EventRec) (name : string) (rec : EventRec) : bool :=
  (bool_decide (eventName eventRec = "") || bool_decide (eventName eventRec = name))
  && matches fn eventRec rec.

(** Every key of the table maps to a list with at least one entry. *)
Definition well_formed (h : Host) : Prop :=
  ∀ tbl name handlerList,
    _eventHandlers h = Some tbl → tbl !! name = Some handlerList → handlerList ≠ [].

(** The thrown values whose properties cannot be read. *)
Definition nullish (e : exn) : bool :=
  match e with
  | Thrown VUndefined | Thrown VNull => true
  | _ => false
  end.

(** The calls [apply] records for a callee: one for a function, none for a
    value that cannot be called. *)
Definition call_of (callee : JsValue) (ev : Event) (args : list JsValue) : list Invocation :=
  match callee with
  | VFun f => [{| callee := f; event := ev; extra := args |}]
  | _ => []
  end.

(** The loop of [trigger] entry by entry, and what it yields when nothing
    escapes from the catch block. *)

Section DispatchLoop.
Context {World : Type}.
Variable body : nat → Event → list JsValue → World → World * outcome.
Implicit Types (h : Host) (name : string) (ev : Event) (args : list JsValue).

(** A callee whose calls never throw [null] or [undefined]. *)
Definition reportable (callee : JsValue) : Prop :=
  ∀ f ev args w e, callee = VFun f → (body f ev args w).2 = Threw e → nullish e = false.

(** How the call of an entry ends: a function runs its body, for any other
    value [apply] fails. *)
Definition call_outcome (callee : JsValue) ev args (w : World) : World * outcome :=
  match callee with
  | VFun f => body f ev args w
  | _ => (w, Threw TypeError)
  end.

(** The console output of a dispatch that reports every failure. *)
Fixpoint failure_reports name h ev args (l : list EventRec) (w : World) : list console_msg :=
  match l with
  | [] => []
  | rec :: l' =>
      let '(w', o) := call_outcome (handler rec) ev args w in
      match o with
      | Returned => []
      | Threw e =>
          [ConsoleError ("Exception in '" +:+ name +:+ "' listener on") (VObj (oid h)) e;
           ConsoleAssertFailed]
      end
      ++ failure_reports name h ev args l' w'
  end.

(** One turn of the loop of [trigger]. *)
Definition turn name h ev args (rec : EventRec) : Js World unit :=
  try_catch (apply body (handler rec) ev args) (report name h).

(** The loop of [trigger], by recursion on the entries still to visit. *)
Fixpoint dispatch name h ev args (l : list EventRec) : Js World unit :=
  match l with
  | [] => mret tt
  | rec :: l' => turn name h ev args rec;; dispatch name h ev args l'
  end.

End DispatchLoop.

(** The string begins with a whitespace character. *)
Definition starts_with_ws (s : string) : bool :=
  match s with
  | EmptyString => false
  | String c _ => is_ws c
  end.

(** The string ends with a whitespace character. *)
Fixpoint ends_with_ws (s : string) : bool :=
  match s with
  | EmptyString => false
  | String c EmptyString => is_ws c
  | String _ s' => ends_with_ws s'
  end.

(** A call of [on] or [off] with a specification string. *)
Inductive call :=
| On (events : string) (fn : JsValue)
| Off (events : string) (fn : JsValue).

Definition perform {World} (c : call) : Js World JsValue :=
  match c with
  | On events fn => on (VStr events) fn
  | Off events fn => off (VStr events) fn
  end.

(** The calls of a list, one after the other. *)
Definition run_calls {World} (cs : list call) (m : Machine World) : Machine World :=
  foldl (λ m c, exec (perform c) m) m cs.

(** The entry was registered by one of the calls [on(events, fn)] of [regs]. *)
Definition registered_by (regs : list (string * JsValue)) (name : string) (rec : EventRec) : Prop :=
  ∃ r token, r ∈ regs ∧ token ∈ clauses r.1 ∧ eventName token = name
             ∧ rec = set_handler token r.2.

(** The optional callback of [off]: omitted, or a function. *)
Definition callback (fn : option nat) : JsValue :=
  match fn with
  | Some f => VFun f
  | None => VUndefined
  end.


(** [typeof v === "function"] *)
Definition is_callable (v : JsValue) : bool :=
  match v with
  | VFun _ => true
  | _ => false
  end.

(** The arguments of [on] for which the specification asks for a failure: a
    specification that is empty or not a string, or a callback that cannot be
    called. *)
Definition invalid_argument (events fn : JsValue) : bool :=
  match events with
  | VStr s => bool_decide (s = "")
  | _ => true
  end
  || negb (is_callable fn).

(** ** Example worlds *)

(** A world that counts the calls; every function returns. *)
Definition counting_body (f : nat) (ev : Event) (args : list JsValue) (w : nat) : nat * outcome :=
  (S w, Returned).

(** The same, except that function 0 runs [throw undefined]. *)
Definition faulty_body (f : nat) (ev : Event) (args : list JsValue) (w : nat) : nat * outcome :=
  (S w, if f =? 0 then Threw (Thrown VUndefined) else Returned).

(** An object (number 7) with two listeners of "a": function 0, then
    function 1. *)
Definition two_listeners : Machine nat :=
  exec (on (VStr "a") (VFun 1)) (exec (on (VStr "a") (VFun 0)) (new_machine 7 0)).



(** ** Notions used in the further properties *)

(** No character of the string is whitespace. *)
Fixpoint no_ws (s : string) : bool :=
  match s with
  | EmptyString => true
  | String c s' => negb (is_ws c) && no_ws s'
  end.

(** No character of the string is a dot. *)
Fixpoint no_dot (s : string) : bool :=
  match s with
  | EmptyString => true
  | String c s' => negb (bool_decide (c = "."%char)) && no_dot s'
  end.

(** The string without its whitespace characters. *)
Fixpoint remove_ws (s : string) : string :=
  match s with
  | EmptyString => EmptyString
  | String c s' => if is_ws c then remove_ws s' else String c (remove_ws s')
  end.

(** The strings of a list, one after the other. *)
Definition concat_strings (l : list string) : string := foldr String.append "" l.

(** The string begins with a dot. *)
Definition starts_with_dot (s : string) : bool :=
  match s with
  | EmptyString => false
  | String c _ => bool_decide (c = "."%char)
  end.

(** A bare event name: not empty, without whitespace and without dot. *)
Definition plain_name (s : string) : bool :=
  negb (bool_decide (s = "")) && no_ws s && no_dot s.

(** The clause looks at the list of the key [name]: it has no event name, or
    it names this key. *)
Definition visits (eventRec : EventRec) (name : string) : bool :=
  bool_decide (eventName eventRec = "") || bool_decide (eventName eventRec = name).

(** The entry [rec] fits the key [name] it is stored under: it carries that
    event name, and its namespace, if any, begins with the dot and holds no
    whitespace. *)
Definition fits_key (name : string) (rec : EventRec) : Prop :=
  eventName rec = name
  ∧ ∀ n, ns rec = Some n → starts_with_dot n = true ∧ no_ws n = true.

(** Every key of the table is free of whitespace and dots, and every entry
    fits the key it is stored under. *)
Definition tidy (h : Host) : Prop :=
  ∀ tbl name handlerList,
    _eventHandlers h = Some tbl → tbl !! name = Some handlerList →
    no_ws name = true ∧ no_dot name = true ∧ Forall (fits_key name) handlerList.

(** ** Names inherited from Object.prototype *)

(** The two tables are object literals.  Looking up a name that
    Object.prototype defines (the members of ECMAScript 5 and the accessors
    of its Annex B) finds the inherited member where the table has no
    property of its own: [on] then calls [push] on the member and raises a
    TypeError, and [off] and [trigger] read the member as if it were a list.
    The maps of the embedding hold own properties only: they stand for the
    tables at every other name, and the statements that need it exclude
    these names with [inherited]. *)
Definition Object_prototype_names : list string :=
  ["constructor"; "toString"; "toLocaleString"; "valueOf"; "hasOwnProperty";
   "isPrototypeOf"; "propertyIsEnumerable"; "__proto__"; "__defineGetter__";
   "__defineSetter__"; "__lookupGetter__"; "__lookupSetter__"].

Definition inherited (name : string) : bool :=
  bool_decide (name ∈ Object_prototype_names).

(** No clause of the specification string names an inherited member. *)
Definition own_names (events : string) : Prop :=
  Forall (λ rec, inherited (eventName rec) = false) (clauses events).

(** The same for a call of [on] or [off]. *)
Definition own_call (c : call) : Prop :=
  match c with
  | On events _ | Off events _ => own_names events
  end.

(** An event name as a caller writes it: a bare name that Object.prototype
    does not define. *)
Definition event_ok (name : string) : bool := plain_name name && negb (inherited name).

(** A primitive value: neither a function nor another object, so it has no
    properties of its own. *)
Definition primitive (v : JsValue) : bool :=
  match v with
  | VFun _ | VObj _ => false
  | _ => true
  end.

(** ** Specification strings, token by token *)

(** A token of a specification string, as the caller means it: a bare event
    name, a bare namespace (given by the text after its dot), or an event
    name followed by a namespace. *)
Inductive token :=
| EventOnly (event : string)
| NamespaceOnly (rest : string)
| EventAndNamespace (event rest : string).

Definition event_of (t : token) : string :=
  match t with
  | EventOnly event | EventAndNamespace event _ => event
  | NamespaceOnly _ => ""
  end.

(** The namespace of a token, with its dot. *)
Definition namespace_of (t : token) : option string :=
  match t with
  | EventOnly _ => None
  | NamespaceOnly rest | EventAndNamespace _ rest => Some (String "." rest)
  end.

(** The characters the caller writes for the token. *)
Definition text_of (t : token) : string := event_of t +:+ default "" (namespace_of t).

(** The record the token stands for, before [on] stores a callback in it. *)
Definition clause_of (t : token) : EventRec :=
  {| eventName := event_of t; ns := namespace_of t; handler := VUndefined |}.

(** The event name is a bare name that is not inherited, and the namespace
    holds no whitespace. *)
Definition token_ok (t : token) : bool :=
  match t with
  | EventOnly event => event_ok event
  | NamespaceOnly rest => no_ws rest
  | EventAndNamespace event rest => event_ok event && no_ws rest
  end.

(** Every character of the string is whitespace. *)
Fixpoint all_ws (s : string) : bool :=
  match s with
  | EmptyString => true
  | String c s' => is_ws c && all_ws s'
  end.

(** A run of whitespace between two tokens, or at an end of the string. *)
Definition separator (s : string) : bool := negb (bool_decide (s = "")) && all_ws s.

(** The specification string of a first token and of further tokens, each
    written after its separator. *)
Fixpoint spec_of (t : token) (more : list (string * token)) : string :=
  match more with
  | [] => text_of t
  | (sep, t') :: more' => text_of t +:+ sep +:+ spec_of t' more'
  end.

Definition tokens_ok (t : token) (more : list (string * token)) : bool :=
  token_ok t && forallb (λ p, separator p.1 && token_ok p.2) more.

(** The record of the empty token that whitespace at an end of the string
    leaves. *)
Definition empty_clause : EventRec :=
  {| eventName := ""; ns := None; handler := VUndefined |}.

(** ** What one run of [on] and [off] does *)

Section Runs.
Context {World : Type}.
Implicit Types (m : Machine World) (h : Host) (tbl : gmap string (list EventRec)).

Lemma on_run (s : string) (fn : JsValue) m :
  on (VStr s) fn m =
    ({| this := foldl (attach fn) (this m) (clauses s);
        world := world m;
        console := console m ++ deprecation_warnings (this m) (clauses s);
        invoked := invoked m |},
     Normal (VObj (oid (this m)))).
Proof. reflexivity. Qed.

Lemma on_not_a_string (events fn : JsValue) m :
  (∀ s, events ≠ VStr s) → on events fn m = (m, Abrupt TypeError).
Proof. intros Hs. destruct events; try reflexivity. by destruct (Hs s). Qed.

Lemma off_run_none (s : string) (fn : JsValue) m :
  _eventHandlers (this m) = None →
  off (VStr s) fn m = (m, Normal VUndefined).
Proof.
  intros Hnone. unfold off, mbind, Js_bind, js_bind. simpl. by rewrite Hnone.
Qed.

Lemma off_run_some (s : string) (fn : JsValue) m tbl :
  _eventHandlers (this m) = Some tbl →
  off (VStr s) fn m =
    ({| this := set_eventHandlers (this m) (foldl (doRemove fn) tbl (clauses s));
        world := world m;
        console := console m;
        invoked := invoked m |},
     Normal (VObj (oid (this m)))).
Proof.
  intros Hsome. unfold off, mbind, Js_bind, js_bind. simpl. by rewrite Hsome.
Qed.

Lemma oid_attach fn h rec : oid (attach fn h rec) = oid h.
Proof. reflexivity. Qed.

Lemma oid_foldl_attach fn l h : oid (foldl (attach fn) h l) = oid h.
Proof. revert h. induction l as [|rec l IH]; intros h; simpl; [done|]. by rewrite IH. Qed.
End Runs.

(** ** The backwards walk is a filter *)

Section Removal.
Variable fn : JsValue.
Variable eventRec : EventRec.
Implicit Types (l : list EventRec) (tbl : gmap string (list EventRec)).

Lemma walk_backwards_prefix (n : nat) l :
  n ≤ length l →
  walk_backwards fn eventRec n l = filter (kept fn eventRec) (take n l) ++ drop n l.
Proof.
  revert l. induction n as [|k IH]; intros l Hlen; simpl.
  - done.
  - destruct (lookup_lt_is_Some_2 l k) as [rec Hrec]; [lia|].
    rewrite Hrec, (take_S_r _ _ _ Hrec), filter_app.
    destruct (matches fn eventRec rec) eqn:Hm.
    + rewrite IH by (rewrite length_delete; [lia | eauto]).
      rewrite delete_take_drop.
      rewrite take_app_le by (rewrite length_take; lia).
      rewrite take_take, Nat.min_id.
      rewrite drop_app_ge by (rewrite length_take; lia).
      rewrite length_take, Nat.min_l by lia.
      rewrite Nat.sub_diag, drop_0.
      rewrite (filter_cons_False _ rec []) by (unfold kept; congruence).
      by rewrite filter_nil, app_nil_r.
    + rewrite IH by lia.
      rewrite (drop_S _ _ _ Hrec).
      rewrite (filter_cons_True _ rec []) by done.
      by rewrite filter_nil, <-app_assoc.
Qed.

Lemma walk_backwards_filter l :
  walk_backwards fn eventRec (length l) l = filter (kept fn eventRec) l.
Proof.
  rewrite walk_backwards_prefix by lia.
  by rewrite firstn_all, drop_all, app_nil_r.
Qed.
End Removal.

(** ** The table after a removal *)

Section Table.
Variable fn : JsValue.
Implicit Types (l : list EventRec) (tbl : gmap string (list EventRec)).
Implicit Types (eventRec rec : EventRec) (name k : string).

Lemma filter_all (P : EventRec → Prop) `{!∀ x, Decision (P x)} l :
  (∀ rec, P rec) → filter P l = l.
Proof.
  intros HP. induction l as [|rec l IH]; [done|].
  by rewrite filter_cons_True, IH.
Qed.

Lemma prune_Some l l' : prune l = Some l' → l' = l ∧ l ≠ [].
Proof.
  unfold prune. destruct l as [|x l]; simpl; [done|].
  intros [= <-]. done.
Qed.

Lemma prune_default l : default [] (prune l) = l.
Proof. by destruct l. Qed.

Lemma prune_filter_idem eventRec l l' :
  prune (filter (kept fn eventRec) l) = Some l' →
  prune (filter (kept fn eventRec) l') = Some l'.
Proof.
  intros Hp. destruct (prune_Some _ _ Hp) as [-> Hne].
  rewrite list_filter_filter.
  rewrite (list_filter_iff _ (kept fn eventRec)) by tauto.
  done.
Qed.

Lemma lookup_removeAllMatches eventRec name tbl k :
  removeAllMatches fn eventRec name tbl !! k =
    if decide (k = name)
    then tbl !! k ≫= λ l, prune (filter (kept fn eventRec) l)
    else tbl !! k.
Proof.
  unfold removeAllMatches.
  destruct (tbl !! name) as [l|] eqn:Hl.
  - rewrite walk_backwards_filter. unfold prune.
    destruct (length _ =? 0) eqn:Hlen.
    + rewrite lookup_delete. destruct (decide (name = k)) as [->|Hne].
      * rewrite decide_True by done. rewrite Hl. simpl. by rewrite Hlen.
      * by rewrite decide_False by done.
    + rewrite lookup_insert. destruct (decide (name = k)) as [->|Hne].
      * rewrite decide_True by done. rewrite Hl. simpl. by rewrite Hlen.
      * by rewrite decide_False by done.
  - destruct (decide (k = name)) as [->|]; [by rewrite Hl|done].
Qed.

Lemma lookup_foldl_removeAllMatches eventRec (names : list string) tbl k :
  foldl (λ t name, removeAllMatches fn eventRec name t) tbl names !! k =
    if decide (k ∈ names)
    then tbl !! k ≫= λ l, prune (filter (kept fn eventRec) l)
    else tbl !! k.
Proof.
  revert tbl. induction names as [|name names IH]; intros tbl; cbn [foldl].
  - destruct (decide (k ∈ [])) as [Hin|_]; [|done].
    by apply not_elem_of_nil in Hin.
  - rewrite IH, lookup_removeAllMatches.
    destruct (decide (k = name)) as [->|Hne].
    + destruct (decide (name ∈ name :: names)) as [_|Hnin];
        [|by destruct Hnin; apply list_elem_of_here].
      destruct (decide (name ∈ names)); [|done].
      destruct (tbl !! name) as [l|]; simpl; [|done].
      destruct (prune (filter (kept fn eventRec) l)) as [l'|] eqn:Hp; simpl; [|done].
      by apply (prune_filter_idem _ l).
    + destruct (decide (k ∈ names)) as [Hin|Hnin];
        destruct (decide (k ∈ name :: names)) as [Hin'|Hnin']; try done.
      * by destruct Hnin'; apply list_elem_of_further.
      * apply elem_of_cons in Hin' as [?|?]; done.
Qed.

Lemma lookup_doRemove tbl eventRec k :
  doRemove fn tbl eventRec !! k =
    if decide (eventName eventRec = "" ∨ eventName eventRec = k)
    then tbl !! k ≫= λ l, prune (filter (kept fn eventRec) l)
    else tbl !! k.
Proof.
  unfold doRemove. destruct (decide (eventName eventRec = "")) as [He|He].
  - rewrite bool_decide_true by done. simpl.
    rewrite lookup_foldl_removeAllMatches.
    rewrite (decide_True (P := _ ∨ _)) by auto.
    destruct (decide (k ∈ (map_to_list tbl).*1)) as [Hin|Hnin]; [done|].
    destruct (tbl !! k) as [l|] eqn:Hl; [|done].
    destruct Hnin. apply list_elem_of_fmap. exists (k, l). split; [done|].
    by apply elem_of_map_to_list.
  - rewrite bool_decide_false by done. simpl.
    rewrite lookup_removeAllMatches.
    destruct (decide (k = eventName eventRec)) as [->|Hne].
    + by rewrite decide_True by auto.
    + rewrite decide_False; [done|]. intros [?|?]; congruence.
Qed.

(** In terms of sequences (absent meaning empty), one clause filters. *)
Lemma entries_doRemove tbl eventRec k :
  default [] (doRemove fn tbl eventRec !! k) =
    filter (λ rec, selects fn eventRec k rec = false) (default [] (tbl !! k)).
Proof.
  rewrite lookup_doRemove. unfold selects.
  destruct (decide (eventName eventRec = "" ∨ eventName eventRec = k)) as [Hv|Hv].
  - destruct (tbl !! k) as [l|]; simpl; [|done].
    rewrite prune_default. apply list_filter_iff. intros rec. unfold kept.
    destruct Hv as [Hv|Hv].
    + by rewrite (bool_decide_true _ Hv).
    + rewrite (bool_decide_true (_ = k)) by done. by rewrite orb_true_r.
  - symmetry. apply filter_all. intros rec.
    rewrite !bool_decide_false by tauto. done.
Qed.

Lemma entries_foldl_doRemove (eventsList : list EventRec) tbl k :
  default [] (foldl (doRemove fn) tbl eventsList !! k) =
    filter (λ rec, existsb (λ eventRec, selects fn eventRec k rec) eventsList = false)
           (default [] (tbl !! k)).
Proof.
  revert tbl. induction eventsList as [|eventRec eventsList IH]; intros tbl; simpl.
  - symmetry. by apply filter_all.
  - rewrite IH, entries_doRemove, list_filter_filter.
    apply list_filter_iff. intros rec.
    rewrite orb_false_iff. tauto.
Qed.
End Table.

(** ** Sequences of entries after [on] and [off] *)

Section Entries.
Context {World : Type}.
Implicit Types (m : Machine World) (h : Host) (fn : JsValue) (name : string).

Lemma entries_attach fn h rec name :
  entries (attach fn h rec) name =
    entries h name ++ (if decide (eventName rec = name) then [set_handler rec fn] else []).
Proof.
  unfold entries, attach. simpl. rewrite lookup_insert.
  destruct (decide (eventName rec = name)) as [->|Hne].
  - by destruct (_eventHandlers h) as [tbl|]; simpl.
  - rewrite app_nil_r.
    destruct (_eventHandlers h) as [tbl|]; simpl; [done|].
    by rewrite lookup_empty.
Qed.

Lemma entries_foldl_attach fn (eventsList : list EventRec) h name :
  entries (foldl (attach fn) h eventsList) name =
    entries h name
    ++ ((λ rec, set_handler rec fn) <$> filter (λ rec, eventName rec = name) eventsList).
Proof.
  revert h. induction eventsList as [|rec eventsList IH]; intros h; simpl.
  - by rewrite app_nil_r.
  - rewrite IH, entries_attach, filter_cons.
    destruct (decide (eventName rec = name)); simpl.
    + by rewrite <-app_assoc.
    + by rewrite app_nil_r.
Qed.

Lemma entries_on (s : string) fn m name :
  entries (this (exec (on (VStr s) fn) m)) name =
    entries (this m) name
    ++ ((λ rec, set_handler rec fn) <$> filter (λ rec, eventName rec = name) (clauses s)).
Proof. unfold exec. rewrite on_run. simpl. apply entries_foldl_attach. Qed.

Lemma entries_off (s : string) fn m name :
  entries (this (exec (off (VStr s) fn) m)) name =
    filter (λ rec, existsb (λ eventRec, selects fn eventRec name rec) (clauses s) = false)
           (entries (this m) name).
Proof.
  unfold exec. destruct (_eventHandlers (this m)) as [tbl|] eqn:Htbl.
  - rewrite (off_run_some _ _ _ _ Htbl). unfold entries. simpl.
    rewrite Htbl. simpl. apply entries_foldl_doRemove.
  - rewrite (off_run_none _ _ _ Htbl). unfold entries. simpl. by rewrite Htbl.
Qed.

Lemma well_formed_new (o : nat) : well_formed (new_host o).
Proof. intros tbl name l Htbl. discriminate. Qed.

Lemma well_formed_attach fn h rec : well_formed h → well_formed (attach fn h rec).
Proof.
  intros Hwf tbl name l [= <-]. rewrite lookup_insert.
  destruct (decide (eventName rec = name)) as [->|Hne].
  - intros [= <-]. by intros [_ ?]%app_nil.
  - destruct (_eventHandlers h) as [tbl|] eqn:Htbl; simpl.
    + by apply Hwf.
    + by rewrite lookup_empty.
Qed.

Lemma well_formed_foldl_attach fn (eventsList : list EventRec) h :
  well_formed h → well_formed (foldl (attach fn) h eventsList).
Proof.
  revert h. induction eventsList as [|rec eventsList IH]; intros h Hwf; simpl; [done|].
  by apply IH, well_formed_attach.
Qed.

Lemma well_formed_on (s : string) fn m :
  well_formed (this m) → well_formed (this (exec (on (VStr s) fn) m)).
Proof. unfold exec. rewrite on_run. simpl. apply well_formed_foldl_attach. Qed.

Lemma nonempty_doRemove fn (tbl : gmap string (list EventRec)) eventRec :
  (∀ name l, tbl !! name = Some l → l ≠ []) →
  ∀ name l, doRemove fn tbl eventRec !! name = Some l → l ≠ [].
Proof.
  intros Hwf name l. rewrite lookup_doRemove.
  destruct (decide (_ ∨ _)); [|by apply Hwf].
  destruct (tbl !! name) as [l0|]; simpl; [|done].
  intros Hp. apply prune_Some in Hp as [-> Hne]. done.
Qed.

Lemma nonempty_foldl_doRemove fn (eventsList : list EventRec)
    (tbl : gmap string (list EventRec)) :
  (∀ name l, tbl !! name = Some l → l ≠ []) →
  ∀ name l, foldl (doRemove fn) tbl eventsList !! name = Some l → l ≠ [].
Proof.
  revert tbl. induction eventsList as [|eventRec eventsList IH]; intros tbl Hwf; simpl.
  - done.
  - by apply IH, nonempty_doRemove.
Qed.

Lemma well_formed_off (s : string) fn m :
  well_formed (this m) → well_formed (this (exec (off (VStr s) fn) m)).
Proof.
  intros Hwf. unfold exec. destruct (_eventHandlers (this m)) as [tbl|] eqn:Htbl.
  - rewrite (off_run_some _ _ _ _ Htbl). simpl.
    intros tbl' name l [= <-].
    apply nonempty_foldl_doRemove. intros name' l'. by apply Hwf.
  - by rewrite (off_run_none _ _ _ Htbl).
Qed.

(** With the invariant, an empty sequence means an absent key. *)
Lemma well_formed_absent h name :
  well_formed h → entries h name = [] → _eventHandlers h ≫= (.!! name) = None.
Proof.
  unfold entries. intros Hwf He.
  destruct (_eventHandlers h) as [tbl|] eqn:Htbl; simpl in *; [|done].
  destruct (tbl !! name) as [l|] eqn:Hl; simpl in *; [|done].
  subst l. by destruct (Hwf _ _ _ Htbl Hl).
Qed.
End Entries.

(** ** The dispatch loop *)

Section DispatchFacts.
Context {World : Type}.
Variable body : nat → Event → list JsValue → World → World * outcome.
Implicit Types (m : Machine World) (h : Host) (name : string) (ev : Event).
Implicit Types (args : list JsValue) (l : list EventRec).

Lemma for_loop_dispatch name h ev args (L l2 l1 : list EventRec) m :
  L = l1 ++ l2 →
  for_loop (length l2) (length l1)
    (λ i, try_catch
            (match L !! i with
             | Some rec => apply body (handler rec) ev args
             | None => throw TypeError
             end)
            (report name h)) m
  = dispatch body name h ev args l2 m.
Proof.
  revert l1 m. induction l2 as [|rec l2 IH]; intros l1 m HL; [done|].
  cbn [length for_loop dispatch]. unfold mbind, Js_bind, js_bind, turn.
  assert (L !! length l1 = Some rec) as -> by (subst L; apply list_lookup_middle; done).
  destruct (try_catch _ _ m) as [m' [[]|e]]; [|done].
  replace (S (length l1)) with (length (l1 ++ [rec])) by (rewrite length_app; simpl; lia).
  apply IH. by rewrite <-app_assoc.
Qed.

Lemma trigger_no_handlers name args m :
  _eventHandlers (this m) ≫= (.!! name) = None →
  trigger body name args m = (m, Normal VUndefined).
Proof.
  intros Hnone. unfold trigger, mbind at 1, Js_bind, js_bind. simpl.
  simpl in Hnone. by rewrite Hnone.
Qed.

Lemma trigger_run name args m l :
  _eventHandlers (this m) ≫= (.!! name) = Some l →
  trigger body name args m =
    (dispatch body name (this m) {| type := name; target := VObj (oid (this m)) |} args l;;
     mret VUndefined) m.
Proof.
  intros Hsome. unfold trigger, mbind at 1, Js_bind, js_bind. simpl.
  simpl in Hsome. rewrite Hsome.
  unfold mbind, Js_bind, js_bind.
  by rewrite (for_loop_dispatch name (this m) _ args l l [] m eq_refl).
Qed.

(** What the catch block does. *)
Lemma report_run name h (err : exn) m :
  report name h err m =
    if nullish err then (m, Abrupt TypeError)
    else ({| this := this m; world := world m;
             console := console m
                        ++ [ConsoleError ("Exception in '" +:+ name +:+ "' listener on")
                              (VObj (oid h)) err;
                            ConsoleAssertFailed];
             invoked := invoked m |},
          Normal tt).
Proof.
  unfold report, get_stack, console_log, mbind, Js_bind, js_bind.
  destruct err as [[]|]; simpl; by rewrite <-?app_assoc.
Qed.

(** What one turn does, in every case. *)
Lemma turn_run name h ev args rec m :
  turn body name h ev args rec m =
    let '(w, o) := call_outcome body (handler rec) ev args (world m) in
    let calls := invoked m ++ call_of (handler rec) ev args in
    match o with
    | Returned => ({| this := this m; world := w; console := console m; invoked := calls |},
                   Normal tt)
    | Threw e =>
        if nullish e
        then ({| this := this m; world := w; console := console m; invoked := calls |},
              Abrupt TypeError)
        else ({| this := this m; world := w;
                 console := console m
                            ++ [ConsoleError ("Exception in '" +:+ name +:+ "' listener on")
                                  (VObj (oid h)) e;
                                ConsoleAssertFailed];
                 invoked := calls |},
              Normal tt)
    end.
Proof.
  unfold turn, try_catch, apply, call_outcome.
  destruct (handler rec) as [| |b|n|s|f|o] eqn:Hh; simpl;
    try (rewrite report_run, app_nil_r; by destruct m).
  destruct (body f ev args (world m)) as [w [|e]]; [done|].
  rewrite report_run. by destruct (nullish e).
Qed.


(** When no callee throws [null] or [undefined], the loop visits every entry,
    reports every failure and completes normally. *)
Lemma dispatch_reportable name h ev args l m :
  Forall (λ rec, reportable body (handler rec)) l →
  ∃ m', dispatch body name h ev args l m = (m', Normal tt)
        ∧ this m' = this m
        ∧ invoked m' = invoked m ++ (l ≫= λ rec, call_of (handler rec) ev args)
        ∧ console m' = console m ++ failure_reports body name h ev args l (world m).
Proof.
  intros Hl. revert m. induction Hl as [|rec l Hrec Hl IH]; intros m.
  - exists m. simpl. by rewrite !app_nil_r.
  - cbn [dispatch failure_reports]. unfold mbind at 1, Js_bind, js_bind.
    rewrite turn_run.
    destruct (call_outcome body (handler rec) ev args (world m)) as [w o] eqn:Ho.
    assert (∀ (m0 : Machine World) (logged : list console_msg),
              this m0 = this m → world m0 = w →
              invoked m0 = invoked m ++ call_of (handler rec) ev args →
              console m0 = console m ++ logged →
              ∃ m', dispatch body name h ev args l m0 = (m', Normal tt)
                    ∧ this m' = this m
                    ∧ invoked m' = invoked m
                        ++ ((rec :: l) ≫= λ rec, call_of (handler rec) ev args)
                    ∧ console m' = console m
                        ++ logged ++ failure_reports body name h ev args l w) as Hnext.
    { intros m0 logged Ht0 Hw0 Hc0 Hl0. destruct (IH m0) as (m' & Hd & Ht & Hc & Hlog).
      exists m'. split_and!; [done|congruence| |].
      - rewrite Hc, Hc0. simpl. by rewrite <-app_assoc.
      - by rewrite Hlog, Hl0, Hw0, <-app_assoc. }
    destruct o as [|e]; [apply (Hnext _ []); simpl; by rewrite ?app_nil_r|].
    assert (nullish e = false) as ->.
    { unfold call_outcome in Ho. destruct (handler rec) as [| |b|n|s|f|o] eqn:Hh;
        try (by injection Ho as _ <-).
      apply (Hrec f ev args (world m) e eq_refl). by rewrite Ho. }
    by apply Hnext.
Qed.



(** [trigger] in terms of the sequence of entries of the event. *)
Lemma trigger_entries name args m :
  trigger body name args m =
    (dispatch body name (this m) {| type := name; target := VObj (oid (this m)) |} args
       (entries (this m) name);;
     mret VUndefined) m.
Proof.
  unfold entries.
  destruct (_eventHandlers (this m) ≫= (.!! name)) as [l|] eqn:Hl.
  - by apply trigger_run.
  - by apply trigger_no_handlers.
Qed.

Lemma trigger_reportable name args m :
  Forall (λ rec, reportable body (handler rec)) (entries (this m) name) →
  let ev := {| type := name; target := VObj (oid (this m)) |} in
  result (trigger body name args) m = Normal VUndefined
  ∧ this (exec (trigger body name args) m) = this m
  ∧ invoked (exec (trigger body name args) m)
    = invoked m ++ (entries (this m) name ≫= λ rec, call_of (handler rec) ev args)
  ∧ console (exec (trigger body name args) m)
    = console m ++ failure_reports body name (this m) ev args (entries (this m) name) (world m).
Proof.
  intros Hl ev.
  destruct (dispatch_reportable name (this m) ev args _ m Hl)
    as (m' & Hd & Ht & Hc & Hlog).
  assert (trigger body name args m = (m', Normal VUndefined)) as Hrun.
  { rewrite trigger_entries. fold ev. unfold mbind, Js_bind, js_bind. by rewrite Hd. }
  unfold result, exec. by rewrite Hrun.
Qed.

End DispatchFacts.

(** ** Facts about the parsing of specification strings *)

Lemma split_ws_leading (s : string) :
  starts_with_ws s = true → head (split_ws s) = Some "".
Proof.
  destruct s as [|c s]; simpl; [done|].
  intros Hc. unfold split_ws. simpl. by rewrite Hc.
Qed.

Lemma split_go_cons (in_sep : bool) (tok : string) (c : ascii) (s : string) :
  split_go in_sep tok (String c s) =
    if is_ws c then
      if in_sep then split_go true tok s else tok :: split_go true "" s
    else split_go false (tok +:+ String c "") s.
Proof. reflexivity. Qed.

Lemma split_go_trailing (s : string) (in_sep : bool) (tok : string) :
  ends_with_ws s = true →
  (in_sep = true → tok = "") →
  last (split_go in_sep tok s) = Some "".
Proof.
  revert in_sep tok. induction s as [|c s IH]; intros in_sep tok Hs Htok; [done|].
  destruct s as [|d s].
  - simpl in Hs. simpl. rewrite Hs.
    destruct in_sep; simpl; [by rewrite Htok|done].
  - assert (ends_with_ws (String d s) = true) as Hs' by done.
    rewrite split_go_cons. destruct (is_ws c).
    + destruct in_sep.
      * by apply IH.
      * rewrite last_cons, IH; done.
    + by apply IH.
Qed.

Lemma split_ws_trailing (s : string) :
  ends_with_ws s = true → last (split_ws s) = Some "".
Proof. intros Hs. by apply split_go_trailing. Qed.

Lemma split_ws_boundary (s : string) :
  starts_with_ws s || ends_with_ws s = true → "" ∈ split_ws s.
Proof.
  intros [Hs|Hs]%orb_true_iff.
  - apply split_ws_leading in Hs. destruct (split_ws s); simplify_eq/=.
    apply list_elem_of_here.
  - by apply last_Some_elem_of, split_ws_trailing.
Qed.

(** A namespace begins with the dot, so it is never the empty string. *)
Lemma substring_from_dot (s : string) (dot : nat) :
  indexOf_dot s = Some dot →
  ∃ rest, String.substring dot (String.length s - dot) s = String "."%char rest.
Proof.
  revert dot. induction s as [|c s IH]; intros dot; simpl; [done|].
  case_bool_decide as Hc.
  - intros [= <-]. subst c. simpl. by eexists.
  - destruct (indexOf_dot s) as [d|]; simpl; [|done].
    intros [= <-]. by apply IH.
Qed.

Lemma splitNs_ns_nonempty (s n : string) : ns (splitNs s) = Some n → n ≠ "".
Proof.
  unfold splitNs. destruct (indexOf_dot s) as [dot|] eqn:Hdot; simpl; [|done].
  intros [= <-]. by destruct (substring_from_dot _ _ Hdot) as [rest ->].
Qed.

Lemma clauses_ns_nonempty (events : string) (token : EventRec) (n : string) :
  token ∈ clauses events → ns token = Some n → n ≠ "".
Proof.
  intros (s & -> & _)%list_elem_of_fmap. apply splitNs_ns_nonempty.
Qed.

(** ** Sequences of calls *)

Section Calls.
Context {World : Type}.
Implicit Types (m : Machine World) (regs : list (string * JsValue)) (cs : list call).


Lemma well_formed_run_calls cs m :
  well_formed (this m) → well_formed (this (run_calls cs m)).
Proof.
  revert m. induction cs as [|c cs IH]; intros m Hwf; [done|].
  apply IH. destruct c; simpl; [by apply well_formed_on|by apply well_formed_off].
Qed.

Lemma selects_own_entry (fn : JsValue) (token : EventRec) :
  selects fn token (eventName token) (set_handler token fn) = true.
Proof.
  unfold selects, matches, strict_eq. simpl.
  rewrite (bool_decide_true (eventName token = eventName token)) by done.
  rewrite (bool_decide_true (ns token = ns token)) by done.
  rewrite (bool_decide_true (fn = fn)) by done.
  by rewrite !orb_true_r.
Qed.

Lemma registered_on (events : string) (fn : JsValue) regs m :
  (∀ name rec, rec ∈ entries (this m) name → registered_by regs name rec) →
  ∀ name rec, rec ∈ entries (this (exec (on (VStr events) fn) m)) name →
              registered_by (regs ++ [(events, fn)]) name rec.
Proof.
  intros Hm name rec. rewrite entries_on, elem_of_app.
  intros [Hin|Hin].
  - destruct (Hm _ _ Hin) as (r & token & Hr & Hrest).
    exists r, token. split; [|done]. apply elem_of_app. auto.
  - apply list_elem_of_fmap in Hin as (token & -> & Hin).
    apply list_elem_of_filter in Hin as [Hname Hin].
    exists (events, fn), token. split_and!; try done.
    apply elem_of_app. right. apply list_elem_of_here.
Qed.

Lemma registered_ons regs0 regs m :
  (∀ name rec, rec ∈ entries (this m) name → registered_by regs0 name rec) →
  ∀ name rec, rec ∈ entries (this (run_calls ((λ r, On r.1 r.2) <$> regs) m)) name →
              registered_by (regs0 ++ regs) name rec.
Proof.
  revert regs0 m. induction regs as [|[events fn] regs IH]; intros regs0 m Hm.
  - by rewrite app_nil_r.
  - rewrite (cons_middle _ regs0 regs), app_assoc. simpl.
    apply IH. by apply registered_on.
Qed.

Lemma registered_off (events : string) (fn : JsValue) regs m :
  (∀ name rec, rec ∈ entries (this m) name →
               registered_by (regs ++ [(events, fn)]) name rec) →
  ∀ name rec, rec ∈ entries (this (exec (off (VStr events) fn) m)) name →
              registered_by regs name rec.
Proof.
  intros Hm name rec. rewrite entries_off, list_elem_of_filter.
  intros [Hkeep Hin].
  destruct (Hm _ _ Hin) as (r & token & Hr & Htok & Hname & ->).
  apply elem_of_app in Hr as [Hr|Hr].
  - by exists r, token.
  - apply list_elem_of_singleton in Hr as ->. simpl in *.
    assert (existsb (λ eventRec, selects fn eventRec name (set_handler token fn))
              (clauses events) = true) as Hsel; [|congruence].
    apply existsb_exists. exists token. split.
    + by apply list_elem_of_In.
    + rewrite <-Hname. apply selects_own_entry.
Qed.

Lemma registered_offs regs m :
  (∀ name rec, rec ∈ entries (this m) name → registered_by regs name rec) →
  ∀ name rec, rec ∈ entries (this (run_calls ((λ r, Off r.1 r.2) <$> reverse regs) m)) name →
              registered_by [] name rec.
Proof.
  revert m. induction regs as [|[events fn] regs IH] using rev_ind; intros m Hm.
  - done.
  - rewrite reverse_snoc. simpl. apply IH. by apply registered_off.
Qed.
End Calls.

(** ** The removal contract, in the words of the specification *)


(** C7: after every sequence of [on] and [off] calls on a new object, each
    key of the handler table maps to a sequence with at least one entry. *)
Theorem table_keys_map_to_entries {World} (o : nat) (w : World) (cs : list call) :
  well_formed (this (run_calls cs (new_machine o w))).
Proof. apply well_formed_run_calls, well_formed_new. Qed.

(** C8: after any sequence of [on] calls on a new object, followed by the
    [off] calls with the same arguments in the inverse order, the handler
    table has no entry under any event name. *)
Theorem ons_then_inverse_offs_leave_no_entry {World} (o : nat) (w : World)
    (regs : list (string * JsValue)) (name : string) :
  _eventHandlers
    (this (run_calls ((λ r, Off r.1 r.2) <$> reverse regs)
             (run_calls ((λ r, On r.1 r.2) <$> regs) (new_machine o w))))
    ≫= (.!! name) = None.
Proof.
  apply well_formed_absent.
  - apply well_formed_run_calls, well_formed_run_calls, well_formed_new.
  - apply elem_of_nil_inv. intros rec Hin.
    assert (registered_by [] name rec) as (r & _ & Hr & _);
      [|by apply elem_of_nil in Hr].
    revert Hin. apply registered_offs. clear name rec.
    apply (registered_ons []). intros name rec Hin. by apply elem_of_nil in Hin.
Qed.


(** ** Arguments that the specification wants rejected *)

(** C5, as stated, fails: the empty specification string and a handler that
    is a number are both accepted, and an entry is registered. *)
Lemma on_accepts_invalid_arguments :
  invalid_argument (VStr "") (VFun 0) = true
  ∧ result (on (VStr "") (VFun 0)) (new_machine 0 tt) = Normal (VObj 0)
  ∧ entries (this (exec (on (VStr "") (VFun 0)) (new_machine 0 tt))) ""
    = [{| eventName := ""; ns := None; handler := VFun 0 |}]
  ∧ invalid_argument (VStr "a") (VNum 5) = true
  ∧ result (on (VStr "a") (VNum 5)) (new_machine 0 tt) = Normal (VObj 0)
  ∧ entries (this (exec (on (VStr "a") (VNum 5)) (new_machine 0 tt))) "a"
    = [{| eventName := "a"; ns := None; handler := VNum 5 |}].
Proof. split_and!; reflexivity. Qed.

(** C6: on an object without handler table, [off] leaves through the early
    return and answers [undefined], not the host object, which [on] answers
    on the same object. *)
Theorem off_without_table_returns_undefined {World} (o : nat)
    (deprecated : option (gmap string JsValue)) (w : World)
    (log : list console_msg) (calls : list Invocation) (events : string) (fn : JsValue) :
  let m := {| this := {| oid := o; _eventHandlers := None; _deprecatedEvents := deprecated |};
              world := w; console := log; invoked := calls |} in
  off (VStr events) fn m = (m, Normal VUndefined)
  ∧ result (on (VStr events) fn) m = Normal (VObj o).
Proof. split; reflexivity. Qed.

(** With a table, [off] returns the host object. *)
Lemma off_with_table_returns_this {World} (m : Machine World) (events : string) (fn : JsValue) :
  is_Some (_eventHandlers (this m)) →
  result (off (VStr events) fn) m = Normal (VObj (oid (this m))).
Proof.
  intros [tbl Htbl]. unfold result. by rewrite (off_run_some _ _ _ _ Htbl).
Qed.

(** ** Dispatch scenarios *)

(** C1: the first listener of "a" throws [undefined].  The catch block reads
    [err.stack], which raises a TypeError inside the handler of the
    exception: the TypeError leaves [trigger], nothing reaches the console
    and the second listener is not called. *)
Theorem trigger_propagates_nullish_throw :
  trigger faulty_body "a" [VNum 4] two_listeners
  = ({| this := this two_listeners;
        world := 1;
        console := [];
        invoked := [{| callee := 0;
                       event := {| type := "a"; target := VObj 7 |};
                       extra := [VNum 4] |}] |},
     Abrupt TypeError).
Proof. reflexivity. Qed.

(** C2: in the same run two entries are registered for "a" and only the
    first one is invoked. *)
Theorem trigger_skips_entries_after_nullish_throw :
  handler <$> entries (this two_listeners) "a" = [VFun 0; VFun 1]
  ∧ callee <$> invoked (exec (trigger faulty_body "a" [VNum 4]) two_listeners) = [0].
Proof. split; reflexivity. Qed.

(** Apart from that case the contract of [trigger] holds: when no listener of
    the event throws [null] or [undefined], every entry is invoked once, in
    the order of registration, with the event object and the extra
    arguments; every failure is reported on the console; [trigger] completes
    normally and leaves the host as it was. *)
Lemma trigger_invokes_in_order {World} (body : nat → Event → list JsValue → World → World * outcome)
    (m : Machine World) (name : string) (args : list JsValue) :
  Forall (λ rec, reportable body (handler rec)) (entries (this m) name) →
  let ev := {| type := name; target := VObj (oid (this m)) |} in
  result (trigger body name args) m = Normal VUndefined
  ∧ invoked (exec (trigger body name args) m)
    = invoked m ++ (entries (this m) name ≫= λ rec, call_of (handler rec) ev args)
  ∧ console (exec (trigger body name args) m)
    = console m ++ failure_reports body name (this m) ev args (entries (this m) name) (world m).
Proof. intros Hl. by destruct (trigger_reportable body name args m Hl) as (? & ? & ? & ?). Qed.

(** Without a sequence for the event name, [trigger] does nothing. *)
Lemma trigger_without_entries {World} (body : nat → Event → list JsValue → World → World * outcome)
    (o : nat) (w : World) (name : string) (args : list JsValue) :
  trigger body name args (new_machine o w) = (new_machine o w, Normal VUndefined).
Proof. reflexivity. Qed.

(** C4: on a new object, registering the function [f] twice for "a" makes two
    entries; [trigger] then calls [f] exactly twice (for an [f] that does not
    throw [null] or [undefined]); one [off("a", f)] removes both entries, and
    an [off] with another function removes none. *)
Theorem same_handler_registered_twice {World}
    (body : nat → Event → list JsValue → World → World * outcome)
    (o : nat) (w : World) (f : nat) (args : list JsValue) :
  reportable body (VFun f) →
  let m2 := exec (on (VStr "a") (VFun f)) (exec (on (VStr "a") (VFun f)) (new_machine o w)) in
  let entry := {| eventName := "a"; ns := None; handler := VFun f |} in
  let call := {| callee := f; event := {| type := "a"; target := VObj o |}; extra := args |} in
  entries (this m2) "a" = [entry; entry]
  ∧ result (trigger body "a" args) m2 = Normal VUndefined
  ∧ invoked (exec (trigger body "a" args) m2) = [call; call]
  ∧ result (off (VStr "a") (VFun f)) m2 = Normal (VObj o)
  ∧ _eventHandlers (this (exec (off (VStr "a") (VFun f)) m2)) ≫= (.!! "a") = None
  ∧ ∀ g, g ≠ f → entries (this (exec (off (VStr "a") (VFun g)) m2)) "a" = [entry; entry].
Proof.
  intros Hf m2 entry call.
  assert (entries (this m2) "a" = [entry; entry]) as He by reflexivity.
  split_and!; try reflexivity.
  - apply trigger_reportable. rewrite He. by repeat constructor.
  - destruct (trigger_reportable body "a" args m2) as (_ & _ & -> & _).
    + rewrite He. by repeat constructor.
    + by rewrite He.
  - apply well_formed_absent.
    + apply well_formed_off, well_formed_on, well_formed_on, well_formed_new.
    + rewrite entries_off, He.
      assert (clauses "a" = [{| eventName := "a"; ns := None; handler := VUndefined |}]) as ->
        by reflexivity.
      assert (existsb (λ eventRec, selects (VFun f) eventRec "a" entry)
                [{| eventName := "a"; ns := None; handler := VUndefined |}] = true) as Hsel.
      { simpl. rewrite orb_false_r.
        apply (selects_own_entry (VFun f)
                 {| eventName := "a"; ns := None; handler := VUndefined |}). }
      rewrite !filter_cons_False by (by rewrite Hsel). done.
  - intros g Hg. rewrite entries_off, He.
    assert (clauses "a" = [{| eventName := "a"; ns := None; handler := VUndefined |}]) as ->
      by reflexivity.
    assert (existsb (λ eventRec, selects (VFun g) eventRec "a" entry)
              [{| eventName := "a"; ns := None; handler := VUndefined |}] = false) as Hkeep.
    { unfold selects, matches, strict_eq, entry. simpl.
      by rewrite (bool_decide_false (VFun g = VFun f)) by congruence. }
    by rewrite !filter_cons_True.
Qed.

Lemma same_handler_registered_twice_witness :
  reportable counting_body (VFun 1)
  ∧ callee <$> invoked (exec (trigger counting_body "a" [])
                          (exec (on (VStr "a") (VFun 1))
                             (exec (on (VStr "a") (VFun 1)) (new_machine 0 0))))
    = [1; 1].
Proof.
  assert (reportable counting_body (VFun 1)) as Hf
    by (intros f ev args w e _ He; discriminate He).
  split; [exact Hf|].
  destruct (same_handler_registered_twice counting_body 0 0 1 [] Hf) as (_ & _ & -> & _).
  reflexivity.
Defined.

(** ** Deprecated events *)

Lemma append_assoc (a b c : string) : (a +:+ b) +:+ c = a +:+ b +:+ c.
Proof.
  induction a as [|x a IH]; [done|].
  change (String x ((a +:+ b) +:+ c) = String x (a +:+ b +:+ c)). by rewrite IH.
Qed.

Lemma append_empty_r (a : string) : a +:+ "" = a.
Proof.
  induction a as [|x a IH]; [done|].
  change (String x (a +:+ "") = String x a). by rewrite IH.
Qed.





(** ** Further properties of the parsing *)

Lemma no_ws_app (a b : string) : no_ws (a +:+ b) = no_ws a && no_ws b.
Proof.
  induction a as [|x a IH]; [done|].
  change (negb (is_ws x) && no_ws (a +:+ b) = negb (is_ws x) && no_ws a && no_ws b).
  by rewrite IH, andb_assoc.
Qed.

Lemma split_go_no_ws (s : string) (in_sep : bool) (tok : string) :
  no_ws tok = true → Forall (λ t, no_ws t = true) (split_go in_sep tok s).
Proof.
  revert in_sep tok. induction s as [|c s IH]; intros in_sep tok Htok.
  - by constructor.
  - rewrite split_go_cons. destruct (is_ws c) eqn:Hc.
    + destruct in_sep; [by apply IH|]. constructor; [done|]. by apply IH.
    + apply IH. rewrite no_ws_app, Htok. simpl. by rewrite Hc.
Qed.

Lemma split_go_concat (s : string) (in_sep : bool) (tok : string) :
  concat_strings (split_go in_sep tok s) = tok +:+ remove_ws s.
Proof.
  revert in_sep tok. induction s as [|c s IH]; intros in_sep tok.
  - simpl. by rewrite append_empty_r.
  - rewrite split_go_cons. simpl. destruct (is_ws c).
    + destruct in_sep; [by apply IH|].
      change (tok +:+ concat_strings (split_go true "" s) = tok +:+ remove_ws s).
      by rewrite IH.
    + rewrite IH. by rewrite append_assoc.
Qed.

Lemma split_go_nonempty_list (s : string) (in_sep : bool) (tok : string) :
  split_go in_sep tok s ≠ [].
Proof.
  revert in_sep tok. induction s as [|c s IH]; intros in_sep tok; [done|].
  rewrite split_go_cons. destruct (is_ws c); [destruct in_sep|]; by (apply IH || done).
Qed.

(** X3: the tokens of [split(/\s+/)] hold no whitespace, there is at least
    one token, and together the tokens are the string without its
    whitespace. *)
Theorem split_ws_tokens (s : string) :
  Forall (λ t, no_ws t = true) (split_ws s)
  ∧ split_ws s ≠ []
  ∧ concat_strings (split_ws s) = remove_ws s.
Proof.
  split_and!.
  - by apply split_go_no_ws.
  - apply split_go_nonempty_list.
  - apply split_go_concat.
Qed.

Lemma ends_with_ws_cons (c : ascii) (s : string) :
  ends_with_ws (String c s) = false →
  ends_with_ws s = false ∧ (is_ws c = true → s ≠ "").
Proof.
  destruct s as [|d s]; simpl.
  - intros ->. done.
  - intros Hs. done.
Qed.

(** Inside a string that does not end with whitespace, no token is empty
    once a token has begun or a character that is no whitespace follows. *)
Lemma split_go_tokens_nonempty (s : string) (in_sep : bool) (tok : string) :
  ends_with_ws s = false →
  (in_sep = false ∧ tok ≠ "") ∨ (s ≠ "" ∧ (in_sep = false → starts_with_ws s = false)) →
  Forall (λ t, t ≠ "") (split_go in_sep tok s).
Proof.
  revert in_sep tok. induction s as [|c s IH]; intros in_sep tok Hend Hst.
  - destruct Hst as [[_ Htok]|[? _]]; [|done]. by repeat constructor.
  - destruct (ends_with_ws_cons _ _ Hend) as [Hend' Hne].
    rewrite split_go_cons. destruct (is_ws c) eqn:Hc.
    + specialize (Hne eq_refl). destruct in_sep.
      * apply IH; [done|]. right. by split.
      * destruct Hst as [[_ Htok]|[_ Hst]]; [|specialize (Hst eq_refl); simpl in Hst; congruence].
        constructor; [done|]. apply IH; [done|]. right. by split.
    + apply IH; [done|]. left. split; [done|].
      by destruct tok.
Qed.

(** X4: the split yields an empty token exactly when the string is empty or
    begins or ends with whitespace; whitespace between two names never
    does. *)
Theorem split_ws_empty_token (s : string) :
  "" ∈ split_ws s ↔ s = "" ∨ starts_with_ws s = true ∨ ends_with_ws s = true.
Proof.
  split.
  - intros Hin.
    destruct (decide (s = "")) as [|Hne]; [by left|]. right.
    destruct (starts_with_ws s) eqn:Hs; [by left|]. right.
    destruct (ends_with_ws s) eqn:He; [done|].
    assert (Forall (λ t, t ≠ "") (split_ws s)) as Hall
      by (apply split_go_tokens_nonempty; [done|by right]).
    rewrite Forall_forall in Hall. by destruct (Hall _ Hin).
  - intros [->|[Hs|He]].
    + apply list_elem_of_here.
    + apply split_ws_boundary. by rewrite Hs.
    + apply split_ws_boundary. by rewrite He, orb_true_r.
Qed.

(** ** Further properties of [splitNs] *)

Lemma substring_all (s : string) : String.substring 0 (String.length s) s = s.
Proof. induction s as [|c s IH]; [done|]. simpl. by rewrite IH. Qed.

Lemma substring_split (s : string) (dot : nat) :
  indexOf_dot s = Some dot →
  String.substring 0 dot s +:+ String.substring dot (String.length s - dot) s = s
  ∧ no_dot (String.substring 0 dot s) = true
  ∧ (no_ws s = true →
     no_ws (String.substring 0 dot s) = true
     ∧ no_ws (String.substring dot (String.length s - dot) s) = true).
Proof.
  revert dot. induction s as [|c s IH]; intros dot; simpl; [done|].
  case_bool_decide as Hc.
  - intros [= <-]. simpl. rewrite substring_all. by split_and!.
  - destruct (indexOf_dot s) as [d|]; simpl; [|done].
    intros [= <-]. destruct (IH d eq_refl) as (Heq & Hdot & Hws). simpl.
    change (String c (String.substring 0 d s)
              +:+ String.substring d (String.length s - d) s)
      with (String c (String.substring 0 d s
                        +:+ String.substring d (String.length s - d) s)).
    rewrite Heq. split_and!; [done| |].
    + rewrite bool_decide_false by done. done.
    + intros [Hcw Hs]%andb_true_iff. destruct (Hws Hs) as [H1 H2].
      rewrite Hcw. done.
Qed.

Lemma indexOf_dot_None (s : string) : indexOf_dot s = None ↔ no_dot s = true.
Proof.
  induction s as [|c s IH]; simpl; [done|].
  case_bool_decide as Hc; simpl; [split; done|].
  rewrite <-IH. destruct (indexOf_dot s); simpl; split; done.
Qed.

(** X1: [splitNs] loses nothing: the event name followed by the namespace
    (nothing when there is none) is the clause it was given. *)
Theorem splitNs_round_trip (eventStr : string) :
  eventName (splitNs eventStr) +:+ default "" (ns (splitNs eventStr)) = eventStr.
Proof.
  unfold splitNs. destruct (indexOf_dot eventStr) as [dot|] eqn:Hdot; simpl.
  - by apply substring_split.
  - apply append_empty_r.
Qed.

(** X2: the event name [splitNs] returns never holds a dot; a namespace is
    returned exactly when the clause holds a dot, and it begins with the
    dot; the event name is empty exactly when the clause is empty or begins
    with a dot. *)
Theorem splitNs_shape (eventStr : string) :
  no_dot (eventName (splitNs eventStr)) = true
  ∧ (ns (splitNs eventStr) = None ↔ no_dot eventStr = true)
  ∧ (∀ n, ns (splitNs eventStr) = Some n → starts_with_dot n = true)
  ∧ (eventName (splitNs eventStr) = ""
     ↔ eventStr = "" ∨ starts_with_dot eventStr = true).
Proof.
  unfold splitNs. destruct (indexOf_dot eventStr) as [dot|] eqn:Hdot; simpl.
  - destruct (substring_split _ _ Hdot) as (Heq & Hnd & _).
    destruct (substring_from_dot _ _ Hdot) as [rest Hrest].
    split_and!; [done| | |].
    + split; [done|]. intros Hn%indexOf_dot_None. congruence.
    + intros n [= <-]. by rewrite Hrest.
    + split.
      * intros He. right. by rewrite <-Heq, He, Hrest.
      * intros [->|Hs]; [done|].
        destruct eventStr as [|c s]; [done|]. simpl in Hs, Hdot.
        rewrite Hs in Hdot. by injection Hdot as <-.
  - apply indexOf_dot_None in Hdot as Hnd. split_and!; [done|done|done|].
    split; [by left|]. intros [->|Hs]; [done|].
    destruct eventStr as [|c s]; [done|]. simpl in Hs, Hnd.
    by rewrite Hs in Hnd.
Qed.

(** ** Several clauses in one call *)

Lemma split_go_after_ws (s : string) (tok : string) :
  starts_with_ws s = false → split_go true tok s = split_go false tok s.
Proof. destruct s as [|c s]; [done|]. simpl. by intros ->. Qed.

Lemma split_go_app (s1 s2 : string) (c : ascii) (in_sep : bool) (tok : string) :
  is_ws c = true →
  ends_with_ws s1 = false →
  starts_with_ws s2 = false →
  (in_sep = true → s1 ≠ "") →
  split_go in_sep tok (s1 +:+ String c s2) = split_go in_sep tok s1 ++ split_go false "" s2.
Proof.
  intros Hc Hend Hstart. revert in_sep tok Hend.
  induction s1 as [|d s1 IH]; intros in_sep tok Hend Hsep.
  - destruct in_sep; [by destruct Hsep|].
    change (split_go false tok (String c s2) = [tok] ++ split_go false "" s2).
    rewrite split_go_cons, Hc. by rewrite split_go_after_ws.
  - destruct (ends_with_ws_cons _ _ Hend) as [Hend' Hne].
    change (String d s1 +:+ String c s2) with (String d (s1 +:+ String c s2)).
    rewrite !split_go_cons. destruct (is_ws d) eqn:Hd.
    + specialize (Hne eq_refl). destruct in_sep.
      * by apply IH.
      * rewrite IH; done.
    + by apply IH.
Qed.

Lemma clauses_app (s1 s2 : string) (c : ascii) :
  is_ws c = true → ends_with_ws s1 = false → starts_with_ws s2 = false →
  clauses (s1 +:+ String c s2) = clauses s1 ++ clauses s2.
Proof.
  intros Hc Hend Hstart. unfold clauses, split_ws.
  rewrite split_go_app by done. by rewrite fmap_app.
Qed.

Lemma deprecated_foldl_attach (fn : JsValue) (l : list EventRec) (h : Host) :
  _deprecatedEvents (foldl (attach fn) h l) = _deprecatedEvents h.
Proof. revert h. induction l as [|rec l IH]; intros h; simpl; [done|]. by rewrite IH. Qed.

Lemma deprecation_warnings_foldl_attach (fn : JsValue) (l l' : list EventRec) (h : Host) :
  deprecation_warnings (foldl (attach fn) h l) l' = deprecation_warnings h l'.
Proof. unfold deprecation_warnings. by rewrite deprecated_foldl_attach. Qed.

Lemma deprecation_warnings_app (h : Host) (l1 l2 : list EventRec) :
  deprecation_warnings h (l1 ++ l2) = deprecation_warnings h l1 ++ deprecation_warnings h l2.
Proof.
  unfold deprecation_warnings. destruct (_deprecatedEvents h); [|done]. apply omap_app.
Qed.

(** X6: the same for [off]: [off(s1 + c + s2, fn)] is [off(s1, fn)] followed
    by [off(s2, fn)]. *)
Theorem off_of_two_parts {World} (m : Machine World) (s1 s2 : string) (c : ascii)
    (fn : JsValue) :
  is_ws c = true → ends_with_ws s1 = false → starts_with_ws s2 = false →
  off (VStr (s1 +:+ String c s2)) fn m = (off (VStr s1) fn;; off (VStr s2) fn) m.
Proof.
  intros Hc Hend Hstart.
  unfold mbind at 1, Js_bind, js_bind.
  destruct (_eventHandlers (this m)) as [tbl|] eqn:Htbl.
  - rewrite !(off_run_some _ _ _ _ Htbl).
    match goal with |- _ = off _ _ ?m' => rewrite (off_run_some s2 fn m' _ eq_refl) end.
    simpl. rewrite clauses_app by done. by rewrite foldl_app.
  - by rewrite !(off_run_none _ _ _ Htbl).
Qed.

Lemma off_of_two_parts_witness :
  is_ws " " = true ∧ ends_with_ws ".x" = false ∧ starts_with_ws "b" = false
  ∧ exec (off (VStr ".x b") VUndefined) (exec (on (VStr "a.x b c") (VFun 1)) (new_machine 0 tt))
    = exec (off (VStr "b") VUndefined)
        (exec (off (VStr ".x") VUndefined)
           (exec (on (VStr "a.x b c") (VFun 1)) (new_machine 0 tt))).
Proof.
  split_and!; [reflexivity|reflexivity|reflexivity|].
  exact (f_equal fst
           (off_of_two_parts (exec (on (VStr "a.x b c") (VFun 1)) (new_machine 0 tt))
              ".x" "b" " " VUndefined eq_refl eq_refl eq_refl)).
Defined.

(** ** The table, key by key, after [off] *)

Lemma filter_nil_filter (P Q : EventRec → Prop) `{!∀ x, Decision (P x), !∀ x, Decision (Q x)}
    (l : list EventRec) :
  filter P l = [] → filter (λ x, Q x ∧ P x) l = [].
Proof. intros HP. by rewrite <-list_filter_filter, HP. Qed.

Lemma lookup_foldl_doRemove (fn : JsValue) (eventsList : list EventRec)
    (tbl : gmap string (list EventRec)) (k : string) :
  foldl (doRemove fn) tbl eventsList !! k =
    match tbl !! k with
    | None => None
    | Some l =>
        if existsb (λ eventRec, visits eventRec k) eventsList
        then prune (filter (λ rec, existsb (λ eventRec, selects fn eventRec k rec) eventsList
                                   = false) l)
        else Some l
    end.
Proof.
  revert tbl. induction eventsList as [|eventRec eventsList IH]; intros tbl.
  - simpl. by destruct (tbl !! k).
  - cbn [foldl existsb]. rewrite IH, lookup_doRemove.
    destruct (tbl !! k) as [l|] eqn:Hl; [|by destruct (decide _)].
    destruct (decide (eventName eventRec = "" ∨ eventName eventRec = k)) as [Hv|Hv].
    + assert (visits eventRec k = true) as Hvis.
      { unfold visits. destruct Hv as [Hv|Hv]; rewrite (bool_decide_true _ Hv); [done|].
        by rewrite orb_true_r. }
      rewrite Hvis. simpl.
      assert (∀ rec, kept fn eventRec rec ↔ selects fn eventRec k rec = false) as Hkept.
      { intros rec. unfold kept, selects. fold (visits eventRec k). by rewrite Hvis. }
      destruct (prune (filter (kept fn eventRec) l)) as [l'|] eqn:Hp.
      * apply prune_Some in Hp as [-> Hne].
        rewrite list_filter_filter.
        destruct (existsb (λ eventRec0, visits eventRec0 k) eventsList) eqn:Hrest.
        -- f_equal. apply list_filter_iff. intros rec.
           rewrite orb_false_iff, Hkept. tauto.
        -- assert (∀ rec, existsb (λ eventRec0, selects fn eventRec0 k rec) eventsList = false)
             as Hnone.
           { intros rec. apply not_true_is_false. intros (er & Hin & Hsel)%existsb_exists.
             apply andb_true_iff in Hsel as [Hsel _].
             assert (existsb (λ eventRec0, visits eventRec0 k) eventsList = true)
               by (apply existsb_exists; eauto). congruence. }
           symmetry. unfold prune.
           rewrite (list_filter_iff _ (kept fn eventRec)).
           ++ destruct (filter (kept fn eventRec) l); done.
           ++ intros rec. rewrite orb_false_iff, Hkept, Hnone. tauto.
      * unfold prune in Hp. destruct (filter (kept fn eventRec) l) as [|x l'] eqn:Hf; [|done].
        symmetry. unfold prune.
        rewrite (list_filter_iff _
                   (λ rec, existsb (λ eventRec0, selects fn eventRec0 k rec) eventsList = false
                           ∧ kept fn eventRec rec)).
        -- by rewrite (filter_nil_filter _ _ _ Hf).
        -- intros rec. rewrite orb_false_iff, Hkept. tauto.
    + assert (visits eventRec k = false) as Hvis.
      { unfold visits. rewrite !bool_decide_false by tauto. done. }
      rewrite Hvis. simpl.
      destruct (existsb (λ eventRec0, visits eventRec0 k) eventsList); [|done].
      f_equal. apply list_filter_iff. intros rec.
      unfold selects at 2. fold (visits eventRec k). by rewrite Hvis.
Qed.

Lemma set_eventHandlers_same (h : Host) (tbl : gmap string (list EventRec)) :
  _eventHandlers h = Some tbl → set_eventHandlers h tbl = h.
Proof. destruct h as [o t d]. simpl. by intros ->. Qed.

Lemma off_run {World} (s : string) (fn : JsValue) (m : Machine World) :
  off (VStr s) fn m =
    match _eventHandlers (this m) with
    | None => (m, Normal VUndefined)
    | Some tbl =>
        ({| this := set_eventHandlers (this m) (foldl (doRemove fn) tbl (clauses s));
            world := world m; console := console m; invoked := invoked m |},
         Normal (VObj (oid (this m))))
    end.
Proof.
  destruct (_eventHandlers (this m)) as [tbl|] eqn:Htbl.
  - by apply off_run_some.
  - by apply off_run_none.
Qed.

Lemma filter_id_elem (P : EventRec → Prop) `{!∀ x, Decision (P x)} (l : list EventRec) :
  (∀ rec, rec ∈ l → P rec) → filter P l = l.
Proof.
  induction l as [|rec l IH]; intros HP; [done|].
  rewrite filter_cons_True by (apply HP, list_elem_of_here).
  rewrite IH; [done|]. intros rec' Hin. by apply HP, list_elem_of_further.
Qed.

(** X7: [off] is idempotent: a second call with the same arguments changes
    nothing and returns what it returned on the machine the first call
    left. *)
Theorem off_twice {World} (m : Machine World) (events : string) (fn : JsValue) :
  exec (off (VStr events) fn) (exec (off (VStr events) fn) m) = exec (off (VStr events) fn) m
  ∧ result (off (VStr events) fn) (exec (off (VStr events) fn) m)
    = result (off (VStr events) fn) m.
Proof.
  unfold exec, result. rewrite !off_run.
  destruct (_eventHandlers (this m)) as [tbl|] eqn:Htbl; simpl; [|by rewrite Htbl].
  split; [|done]. f_equal. unfold set_eventHandlers. simpl. do 2 f_equal.
  apply map_eq. intros k. rewrite !lookup_foldl_doRemove.
  destruct (tbl !! k) as [l|]; [|done].
  destruct (existsb (λ eventRec, visits eventRec k) (clauses events)); [|done].
  destruct (prune _) as [l'|] eqn:Hp; [|done].
  apply prune_Some in Hp as Hp'. destruct Hp' as [-> Hne].
  rewrite list_filter_filter.
  rewrite (list_filter_iff _ (λ rec, existsb (λ eventRec, selects fn eventRec k rec)
                                       (clauses events) = false)) by tauto.
  done.
Qed.

(** X8: removing what is not registered is a silent no-op: when the table
    keeps its invariant and no clause selects any entry, [off] leaves the
    machine exactly as it was. *)
Theorem off_nothing_selected {World} (m : Machine World) (events : string) (fn : JsValue) :
  well_formed (this m) →
  (∀ name rec, rec ∈ entries (this m) name →
     existsb (λ eventRec, selects fn eventRec name rec) (clauses events) = false) →
  exec (off (VStr events) fn) m = m.
Proof.
  intros Hwf Hnone. unfold exec. rewrite off_run.
  destruct (_eventHandlers (this m)) as [tbl|] eqn:Htbl; [|done]. simpl.
  assert (foldl (doRemove fn) tbl (clauses events) = tbl) as ->.
  { apply map_eq. intros k. rewrite lookup_foldl_doRemove.
    destruct (tbl !! k) as [l|] eqn:Hl; [|done].
    destruct (existsb (λ eventRec, visits eventRec k) (clauses events)); [|done].
    rewrite filter_id_elem.
    - unfold prune. pose proof (Hwf _ _ _ Htbl Hl). by destruct l.
    - intros rec Hin. apply Hnone. unfold entries. rewrite Htbl. simpl. by rewrite Hl. }
  rewrite (set_eventHandlers_same _ _ Htbl). by destruct m.
Qed.

Lemma off_nothing_selected_witness :
  let m := exec (on (VStr "a.x") (VFun 1)) (new_machine 0 tt) in
  well_formed (this m)
  ∧ exec (off (VStr "b a.y") (VFun 1)) m = m.
Proof.
  intros m.
  assert (well_formed (this m)) as Hwf by apply well_formed_on, well_formed_new.
  split; [exact Hwf|].
  apply (off_nothing_selected m "b a.y" (VFun 1) Hwf).
  intros name rec. unfold m. rewrite entries_on. simpl.
  assert (clauses "a.x" = [{| eventName := "a"; ns := Some ".x"; handler := VUndefined |}])
    as -> by reflexivity.
  rewrite filter_cons. case_decide as Hname; simpl in Hname.
  - subst name. intros ->%list_elem_of_singleton. reflexivity.
  - intros Hin. by apply elem_of_nil in Hin.
Defined.

(** X9: a registration that is removed again leaves no trace in the
    sequences: for every event name, the entries after [on(events, fn)]
    followed by [off(events, fn)] are the entries after [off(events, fn)]
    alone. *)
Theorem on_then_off_is_off {World} (m : Machine World) (events : string) (fn : JsValue)
    (name : string) :
  entries (this (exec (off (VStr events) fn) (exec (on (VStr events) fn) m))) name
  = entries (this (exec (off (VStr events) fn) m)) name.
Proof.
  rewrite !entries_off, entries_on, filter_app.
  match goal with |- _ ++ ?l = _ => assert (l = []) as -> end; [|by rewrite app_nil_r].
  apply elem_of_nil_inv. intros rec [Hkeep Hin]%list_elem_of_filter.
  apply list_elem_of_fmap in Hin as (token & -> & Hin).
  apply list_elem_of_filter in Hin as [Hname Hin].
  assert (existsb (λ eventRec, selects fn eventRec name (set_handler token fn))
            (clauses events) = true) as Hsel; [|congruence].
  apply existsb_exists. exists token. split; [by apply list_elem_of_In|].
  rewrite <-Hname. apply selects_own_entry.
Qed.

(** ** Bare event names and bare namespaces *)

Lemma split_go_no_ws_string (s : string) (tok : string) :
  no_ws s = true → split_go false tok s = [tok +:+ s].
Proof.
  revert tok. induction s as [|c s IH]; intros tok; simpl.
  - by rewrite append_empty_r.
  - intros [Hc Hs]%andb_true_iff. apply negb_true_iff in Hc. rewrite Hc.
    rewrite IH by done. by rewrite append_assoc.
Qed.

Lemma clauses_plain_name (name : string) :
  plain_name name = true →
  name ≠ "" ∧ clauses name = [{| eventName := name; ns := None; handler := VUndefined |}].
Proof.
  unfold plain_name. intros [[Hne Hws]%andb_true_iff Hdot]%andb_true_iff.
  apply negb_true_iff, bool_decide_eq_false in Hne. split; [done|].
  unfold clauses, split_ws. rewrite split_go_no_ws_string by done.
  change ("" +:+ name) with name. simpl.
  unfold splitNs. apply indexOf_dot_None in Hdot as ->. done.
Qed.

Lemma clauses_namespace (rest : string) :
  no_ws rest = true →
  clauses (String "." rest)
  = [{| eventName := ""; ns := Some (String "." rest); handler := VUndefined |}].
Proof.
  intros Hws. unfold clauses, split_ws.
  rewrite split_go_no_ws_string by done.
  change ("" +:+ String "." rest) with (String "." rest). simpl.
  unfold splitNs. simpl. by rewrite substring_all.
Qed.

Lemma filter_none (P : EventRec → Prop) `{!∀ x, Decision (P x)} (l : list EventRec) :
  (∀ rec, ¬ P rec) → filter P l = [].
Proof.
  intros HP. induction l as [|rec l IH]; [done|].
  by rewrite filter_cons_False.
Qed.

(** X11: [off] with a bare namespace works across all events: under every
    event name it removes the entries registered with exactly that namespace
    (and with the callback, when one is given) and keeps the others in
    their order. *)
Theorem off_bare_namespace {World} (m : Machine World) (rest : string) (fn : option nat)
    (name : string) :
  no_ws rest = true →
  entries (this (exec (off (VStr (String "." rest)) (callback fn)) m)) name
  = filter (λ rec, ¬ (ns rec = Some (String "." rest)
                      ∧ (fn = None ∨ VFun <$> fn = Some (handler rec))))
           (entries (this m) name).
Proof.
  intros Hws. rewrite entries_off, (clauses_namespace _ Hws).
  apply list_filter_iff. intros rec.
  unfold selects, matches, strict_eq. simpl. rewrite orb_false_r.
  destruct fn as [f|]; simpl.
  - rewrite andb_false_iff, !bool_decide_eq_false. split.
    + intros [H|H] [H1 [H2|H2]]; congruence.
    + intros H. destruct (decide (Some (String "." rest) = ns rec)) as [Heq|Hne]; [|by left].
      right. intros Hf. apply H. split; [congruence|]. right. congruence.
  - rewrite andb_true_r, bool_decide_eq_false. split.
    + intros H [H1 _]. congruence.
    + intros H Heq. apply H. split; [congruence|by left].
Qed.

Lemma off_bare_namespace_witness :
  no_ws "ns1" = true
  ∧ handler <$> entries (this (exec (off (VStr ".ns1") VUndefined)
                                 (exec (on (VStr "a.ns1 b.ns2") (VFun 1)) (new_machine 0 tt))))
                  "a" = []
  ∧ handler <$> entries (this (exec (off (VStr ".ns1") VUndefined)
                                 (exec (on (VStr "a.ns1 b.ns2") (VFun 1)) (new_machine 0 tt))))
                  "b" = [VFun 1].
Proof.
  split_and!; [reflexivity| |].
  - rewrite (off_bare_namespace _ "ns1" None "a" eq_refl). reflexivity.
  - rewrite (off_bare_namespace _ "ns1" None "b" eq_refl). reflexivity.
Defined.

(** ** The shape of the table *)

Lemma splitNs_fits (t : string) (fn : JsValue) :
  no_ws t = true →
  no_ws (eventName (splitNs t)) = true
  ∧ no_dot (eventName (splitNs t)) = true
  ∧ fits_key (eventName (splitNs t)) (set_handler (splitNs t) fn).
Proof.
  intros Hws. unfold splitNs, fits_key.
  destruct (indexOf_dot t) as [dot|] eqn:Hdot; simpl.
  - destruct (substring_split _ _ Hdot) as (_ & Hnd & Hw). destruct (Hw Hws) as [Hw1 Hw2].
    destruct (substring_from_dot _ _ Hdot) as [rest Hrest].
    split_and!; [done|done|done|]. intros n [= <-]. split; [by rewrite Hrest|done].
  - apply indexOf_dot_None in Hdot. by split_and!.
Qed.

Lemma tidy_attach (fn : JsValue) (h : Host) (t : string) :
  no_ws t = true → tidy h → tidy (attach fn h (splitNs t)).
Proof.
  intros Hws Ht tbl name l [= <-]. rewrite lookup_insert.
  destruct (splitNs_fits t fn Hws) as (Hw & Hd & Hfit).
  destruct (decide (eventName (splitNs t) = name)) as [<-|Hne].
  - intros [= <-]. split_and!; [done|done|].
    apply Forall_app. split; [|constructor; [exact Hfit|constructor]].
    destruct (_eventHandlers h) as [tbl|] eqn:Htbl; simpl.
    + destruct (tbl !! eventName (splitNs t)) as [l|] eqn:Hl; simpl; [|constructor].
      by apply (Ht _ _ _ Htbl Hl).
    + rewrite lookup_empty. constructor.
  - destruct (_eventHandlers h) as [tbl|] eqn:Htbl; simpl.
    + by apply Ht.
    + by rewrite lookup_empty.
Qed.

Lemma tidy_on {World} (m : Machine World) (events : string) (fn : JsValue) :
  tidy (this m) → tidy (this (exec (on (VStr events) fn) m)).
Proof.
  unfold exec. rewrite on_run. simpl. unfold clauses.
  pose proof (split_go_no_ws events false "" eq_refl) as Hall. fold (split_ws events) in Hall.
  generalize (this m). induction Hall as [|t l Ht Hl IH]; intros h Hh; [done|].
  simpl. apply IH. by apply tidy_attach.
Qed.

Lemma tidy_off {World} (m : Machine World) (events : string) (fn : JsValue) :
  tidy (this m) → tidy (this (exec (off (VStr events) fn) m)).
Proof.
  intros Ht. unfold exec. rewrite off_run.
  destruct (_eventHandlers (this m)) as [tbl|] eqn:Htbl; [|done]. simpl.
  intros tbl' name l' [= <-]. rewrite lookup_foldl_doRemove.
  destruct (tbl !! name) as [l|] eqn:Hl; [|done].
  destruct (Ht _ _ _ Htbl Hl) as (Hw & Hd & Hfit).
  destruct (existsb _ _).
  - intros [-> _]%prune_Some. split_and!; [done|done|].
    rewrite Forall_forall in Hfit. apply Forall_forall.
    intros rec [_ Hin]%list_elem_of_filter. by apply Hfit.
  - by intros [= <-].
Qed.

Lemma tidy_run_calls {World} (cs : list call) (m : Machine World) :
  tidy (this m) → tidy (this (run_calls cs m)).
Proof.
  revert m. induction cs as [|c cs IH]; intros m Ht; [done|].
  apply IH. destruct c; simpl; [by apply tidy_on|by apply tidy_off].
Qed.

(** X12: whatever [on] and [off] calls an object has seen, the keys of its
    handler table hold neither whitespace nor a dot, every entry carries the
    event name of the key it is stored under, and a namespace begins with
    the dot and holds no whitespace. *)
Theorem table_is_tidy {World} (o : nat) (w : World) (cs : list call) :
  tidy (this (run_calls cs (new_machine o w))).
Proof. apply tidy_run_calls. intros tbl name l Htbl. discriminate. Qed.

(** X13: [trigger] does not support namespaces: on an object that has seen
    any [on] and [off] calls, a [trigger] whose event name holds a dot or
    whitespace finds no listener and does nothing. *)
Theorem trigger_with_namespace_does_nothing {World}
    (body : nat → Event → list JsValue → World → World * outcome)
    (o : nat) (w : World) (cs : list call) (name : string) (args : list JsValue) :
  no_ws name && no_dot name = false →
  trigger body name args (run_calls cs (new_machine o w))
  = (run_calls cs (new_machine o w), Normal VUndefined).
Proof.
  intros Hname. apply trigger_no_handlers.
  assert (tidy (this (run_calls cs (new_machine o w)))) as Ht
    by (apply tidy_run_calls; intros tbl n l Htbl; discriminate).
  destruct (_eventHandlers (this (run_calls cs (new_machine o w)))) as [tbl|] eqn:Htbl;
    simpl; [|done].
  destruct (tbl !! name) as [l|] eqn:Hl; [|done].
  destruct (Ht _ _ _ Htbl Hl) as (Hw & Hd & _). by rewrite Hw, Hd in Hname.
Qed.

Lemma trigger_with_namespace_witness :
  no_ws "a.x" && no_dot "a.x" = false
  ∧ invoked (exec (trigger counting_body "a.x" [])
               (run_calls [On "a.x" (VFun 1)] (new_machine 0 0))) = [].
Proof.
  split; [reflexivity|].
  unfold exec.
  rewrite (trigger_with_namespace_does_nothing counting_body 0 0 [On "a.x" (VFun 1)] "a.x" []
             eq_refl).
  reflexivity.
Defined.

(** ** What can leave [trigger] *)

Lemma dispatch_outcome {World} (body : nat → Event → list JsValue → World → World * outcome)
    (name : string) (h : Host) (ev : Event) (args : list JsValue) (l : list EventRec)
    (m : Machine World) :
  ∃ n m' c,
    dispatch body name h ev args l m = (m', c)
    ∧ n ≤ length l
    ∧ invoked m' = invoked m ++ (take n l ≫= λ rec, call_of (handler rec) ev args)
    ∧ (c = Normal tt ∧ n = length l ∨ c = Abrupt TypeError ∧ 0 < n).
Proof.
  revert m. induction l as [|rec l IH]; intros m.
  - exists 0, m, (Normal tt). simpl. rewrite app_nil_r. split_and!; [done|done|done|by left].
  - cbn [dispatch]. unfold mbind at 1, Js_bind, js_bind. rewrite turn_run.
    destruct (call_outcome body (handler rec) ev args (world m)) as [w o].
    assert (∀ m0 : Machine World,
              invoked m0 = invoked m ++ call_of (handler rec) ev args →
              ∃ n m' c,
                dispatch body name h ev args l m0 = (m', c)
                ∧ n ≤ length (rec :: l)
                ∧ invoked m' = invoked m
                    ++ (take n (rec :: l) ≫= λ rec, call_of (handler rec) ev args)
                ∧ (c = Normal tt ∧ n = length (rec :: l) ∨ c = Abrupt TypeError ∧ 0 < n))
      as Hnext.
    { intros m0 Hm0. destruct (IH m0) as (n & m' & c & Hd & Hn & Hinv & Hc).
      exists (S n), m', c. split_and!; [done|simpl; lia| |].
      - rewrite Hinv, Hm0. simpl. by rewrite <-app_assoc.
      - destruct Hc as [[-> ->]|[-> Hpos]]; [by left|right; split; [done|lia]]. }
    destruct o as [|e]; [by apply Hnext|].
    destruct (nullish e); [|by apply Hnext].
    eexists 1, _, _. split_and!; [done|simpl; lia| |right; split; [done|lia]].
    simpl. by rewrite app_nil_r.
Qed.

(** X14: for listeners that leave the listeners of the dispatching object
    as they are and that throw primitive values, functions or ordinary
    objects (such as Error instances) only, [trigger] either returns
    [undefined] or is left by a TypeError, never by the value a listener
    threw; the listeners it has called are an initial part of the entries of
    the event, in the order of registration, each called once with the event
    object and the extra arguments, and all of them when [trigger]
    returns. *)
Theorem trigger_outcome {World} (body : nat → Event → list JsValue → World → World * outcome)
    (m : Machine World) (name : string) (args : list JsValue) :
  ∃ n,
    n ≤ length (entries (this m) name)
    ∧ invoked (exec (trigger body name args) m)
      = invoked m
        ++ (take n (entries (this m) name) ≫= λ rec,
              call_of (handler rec) {| type := name; target := VObj (oid (this m)) |} args)
    ∧ (result (trigger body name args) m = Normal VUndefined
       ∧ n = length (entries (this m) name)
       ∨ result (trigger body name args) m = Abrupt TypeError ∧ 0 < n).
Proof.
  unfold exec, result. rewrite trigger_entries.
  unfold mbind, Js_bind, js_bind.
  destruct (dispatch_outcome body name (this m)
              {| type := name; target := VObj (oid (this m)) |} args
              (entries (this m) name) m) as (n & m' & c & -> & Hn & Hinv & Hc).
  exists n. destruct Hc as [[-> ->]|[-> Hpos]]; simpl.
  - split_and!; [done|done|by left].
  - split_and!; [done|done|by right].
Qed.

(** ** Listeners that cannot be called *)

Lemma dispatch_non_callable {World}
    (body : nat → Event → list JsValue → World → World * outcome)
    (name : string) (h : Host) (ev : Event) (args : list JsValue) (l : list EventRec)
    (m : Machine World) :
  Forall (λ rec, is_callable (handler rec) = false) l →
  dispatch body name h ev args l m
  = ({| this := this m; world := world m;
        console := console m
                   ++ (l ≫= λ _, [ConsoleError ("Exception in '" +:+ name +:+ "' listener on")
                                    (VObj (oid h)) TypeError;
                                  ConsoleAssertFailed]);
        invoked := invoked m |},
     Normal tt).
Proof.
  intros Hl. revert m. induction Hl as [|rec l Hrec Hl IH]; intros m.
  - simpl. rewrite app_nil_r. by destruct m.
  - cbn [dispatch]. unfold mbind at 1, Js_bind, js_bind. rewrite turn_run.
    assert (call_outcome body (handler rec) ev args (world m) = (world m, Threw TypeError)
            ∧ call_of (handler rec) ev args = []) as [-> ->]
      by (by destruct (handler rec)).
    simpl. rewrite IH. simpl. by rewrite app_nil_r, <-app_assoc.
Qed.

(** ** Sequences of calls, from any object *)

Lemma run_calls_cons {World} (c : call) (cs : list call) (m : Machine World) :
  run_calls (c :: cs) m = run_calls cs (exec (perform c) m).
Proof. reflexivity. Qed.

Lemma entries_offs {World} (L : list (string * JsValue)) (m : Machine World) (name : string) :
  entries (this (run_calls ((λ r, Off r.1 r.2) <$> L) m)) name
  = filter (λ rec, forallb (λ r, negb (existsb (λ eventRec, selects r.2 eventRec name rec)
                                         (clauses r.1))) L = true)
           (entries (this m) name).
Proof.
  revert m. induction L as [|[events fn] L IH]; intros m.
  - simpl. symmetry. by apply filter_id_elem.
  - rewrite fmap_cons, run_calls_cons. cbn [perform fst snd].
    rewrite IH, entries_off, list_filter_filter.
    apply list_filter_iff. intros rec. simpl.
    rewrite andb_true_iff, negb_true_iff. tauto.
Qed.

Lemma offs_select_registered (L : list (string * JsValue)) (events : string)
    (fn : JsValue) (name : string) (rec : EventRec) :
  (events, fn) ∈ L →
  rec ∈ (λ rec, set_handler rec fn) <$> filter (λ rec, eventName rec = name) (clauses events) →
  forallb (λ r, negb (existsb (λ eventRec, selects r.2 eventRec name rec) (clauses r.1))) L
  = false.
Proof.
  intros HL (token & -> & [Hname Hin]%list_elem_of_filter)%list_elem_of_fmap.
  apply not_true_is_false. intros Hall. rewrite forallb_forall in Hall.
  specialize (Hall (events, fn)). simpl in Hall.
  rewrite negb_true_iff in Hall.
  assert (existsb (λ eventRec, selects fn eventRec name (set_handler token fn))
            (clauses events) = true) as Hsel.
  { apply existsb_exists. exists token. split; [by apply list_elem_of_In|].
    rewrite <-Hname. apply selects_own_entry. }
  rewrite Hall in Hsel; [done|]. by apply list_elem_of_In.
Qed.

Lemma ons_then_offs {World} (regs L : list (string * JsValue)) (m : Machine World)
    (name : string) :
  (∀ r, r ∈ regs → r ∈ L) →
  entries (this (run_calls ((λ r, Off r.1 r.2) <$> L)
                   (run_calls ((λ r, On r.1 r.2) <$> regs) m))) name
  = entries (this (run_calls ((λ r, Off r.1 r.2) <$> L) m)) name.
Proof.
  revert m. induction regs as [|[events fn] regs IH]; intros m Hsub; [done|].
  rewrite fmap_cons, run_calls_cons. cbn [perform fst snd].
  rewrite IH by (intros r Hr; by apply Hsub, list_elem_of_further).
  rewrite !entries_offs, entries_on, filter_app.
  match goal with |- _ ++ ?l = _ => assert (l = []) as -> end; [|by rewrite app_nil_r].
  apply elem_of_nil_inv. intros rec [Hkeep Hin]%list_elem_of_filter.
  rewrite (offs_select_registered L events fn name rec) in Hkeep; [done| |done].
  apply Hsub, list_elem_of_here.
Qed.

(** X18: the round trip holds from any object, not only from a new one: the
    [on] calls of a list followed by the [off] calls with the same arguments
    in the inverse order leave, under every event name, the entries that the
    [off] calls alone leave. *)
Theorem ons_then_inverse_offs_from_any_object {World} (m : Machine World)
    (regs : list (string * JsValue)) (name : string) :
  entries (this (run_calls ((λ r, Off r.1 r.2) <$> reverse regs)
                   (run_calls ((λ r, On r.1 r.2) <$> regs) m))) name
  = entries (this (run_calls ((λ r, Off r.1 r.2) <$> reverse regs) m)) name.
Proof. apply ons_then_offs. intros r Hr. by apply elem_of_reverse. Qed.

(** X19: the order of two [off] calls does not matter for what remains
    registered. *)
Theorem off_calls_commute {World} (m : Machine World) (events1 events2 : string)
    (fn1 fn2 : JsValue) (name : string) :
  entries (this (exec (off (VStr events2) fn2) (exec (off (VStr events1) fn1) m))) name
  = entries (this (exec (off (VStr events1) fn1) (exec (off (VStr events2) fn2) m))) name.
Proof.
  rewrite !entries_off, !list_filter_filter. apply list_filter_iff. tauto.
Qed.

(** ** Chaining after the first registration *)

Lemma table_after_attach (fn : JsValue) (l : list EventRec) (h : Host) :
  l ≠ [] ∨ is_Some (_eventHandlers h) → is_Some (_eventHandlers (foldl (attach fn) h l)).
Proof.
  revert h. induction l as [|rec l IH]; intros h [Hl|Hh]; simpl; try done.
  - apply IH. right. by eexists.
  - apply IH. right. by eexists.
Qed.

Lemma table_and_oid_run_calls {World} (cs : list call) (m : Machine World) :
  is_Some (_eventHandlers (this m)) →
  is_Some (_eventHandlers (this (run_calls cs m))) ∧ oid (this (run_calls cs m)) = oid (this m).
Proof.
  revert m. induction cs as [|c cs IH]; intros m Hm; [done|].
  rewrite run_calls_cons.
  destruct c as [events fn|events fn]; cbn [perform].
  - destruct (IH (exec (on (VStr events) fn) m)) as [H1 H2].
    + unfold exec. rewrite on_run. simpl. apply table_after_attach. by right.
    + split; [done|]. rewrite H2. unfold exec. rewrite on_run. simpl.
      apply oid_foldl_attach.
  - destruct Hm as [tbl Htbl].
    destruct (IH (exec (off (VStr events) fn) m)) as [H1 H2].
    + unfold exec. rewrite (off_run_some _ _ _ _ Htbl). simpl. by eexists.
    + split; [done|]. rewrite H2. unfold exec. by rewrite (off_run_some _ _ _ _ Htbl).
Qed.

(** ** Specification strings written token by token *)

Lemma split_go_skip (sep s : string) (tok : string) :
  all_ws sep = true → split_go true tok (sep +:+ s) = split_go true tok s.
Proof.
  induction sep as [|c sep IH]; [done|]. cbn [all_ws]. intros [Hc Hs]%andb_true_iff.
  change (String c sep +:+ s) with (String c (sep +:+ s)).
  rewrite split_go_cons, Hc. by apply IH.
Qed.

Lemma split_go_sep (s1 sep s2 : string) (in_sep : bool) (tok : string) :
  separator sep = true →
  ends_with_ws s1 = false →
  starts_with_ws s2 = false →
  (in_sep = true → s1 ≠ "") →
  split_go in_sep tok (s1 +:+ sep +:+ s2) = split_go in_sep tok s1 ++ split_go false "" s2.
Proof.
  unfold separator. intros [Hne Hsep]%andb_true_iff Hend Hstart.
  destruct sep as [|c sep]; [done|]. simpl in Hsep. apply andb_true_iff in Hsep as [Hc Hsep].
  revert in_sep tok Hend.
  induction s1 as [|d s1 IH]; intros in_sep tok Hend Hs1.
  - destruct in_sep; [by destruct Hs1|].
    change (split_go false tok (String c (sep +:+ s2)) = [tok] ++ split_go false "" s2).
    rewrite split_go_cons, Hc, split_go_skip by done. by rewrite split_go_after_ws.
  - destruct (ends_with_ws_cons _ _ Hend) as [Hend' Hne'].
    change (String d s1 +:+ String c sep +:+ s2)
      with (String d (s1 +:+ String c sep +:+ s2)).
    rewrite !split_go_cons. destruct (is_ws d) eqn:Hd.
    + specialize (Hne' eq_refl). destruct in_sep.
      * by apply IH.
      * rewrite IH; done.
    + by apply IH.
Qed.

Lemma clauses_sep (s1 sep s2 : string) :
  separator sep = true → ends_with_ws s1 = false → starts_with_ws s2 = false →
  clauses (s1 +:+ sep +:+ s2) = clauses s1 ++ clauses s2.
Proof.
  intros Hsep Hend Hstart. unfold clauses, split_ws.
  rewrite split_go_sep by done. by rewrite fmap_app.
Qed.

Lemma no_ws_ends (s : string) : no_ws s = true → ends_with_ws s = false.
Proof.
  induction s as [|c s IH]; [done|]. simpl. intros [Hc Hs]%andb_true_iff.
  destruct s; [by apply negb_true_iff|by apply IH].
Qed.

Lemma starts_with_ws_app (a b : string) :
  a ≠ "" → no_ws a = true → starts_with_ws (a +:+ b) = false.
Proof.
  destruct a as [|c a]; [done|]. simpl. intros _ [Hc _]%andb_true_iff.
  change (String c a +:+ b) with (String c (a +:+ b)). simpl. by apply negb_true_iff.
Qed.

Lemma append_nonempty_r (a b : string) : b ≠ "" → a +:+ b ≠ "".
Proof. destruct a; [done|]. discriminate. Qed.

Lemma ends_with_ws_app (a b : string) : b ≠ "" → ends_with_ws (a +:+ b) = ends_with_ws b.
Proof.
  intros Hb. induction a as [|c a IH]; [done|].
  change (String c a +:+ b) with (String c (a +:+ b)). rewrite <-IH.
  pose proof (append_nonempty_r a b Hb) as Hab. by destruct (a +:+ b).
Qed.

Lemma indexOf_dot_app (event rest : string) :
  no_dot event = true →
  indexOf_dot (event +:+ String "." rest) = Some (String.length event).
Proof.
  induction event as [|c e IH]; [done|]. simpl. intros [Hc He]%andb_true_iff.
  change (String c e +:+ String "." rest) with (String c (e +:+ String "." rest)).
  simpl. apply negb_true_iff in Hc. rewrite Hc. by rewrite IH.
Qed.

Lemma substring_app_l (a b : string) : String.substring 0 (String.length a) (a +:+ b) = a.
Proof.
  induction a as [|c a IH]; [by destruct b|].
  change (String c a +:+ b) with (String c (a +:+ b)). simpl. by rewrite IH.
Qed.

Lemma substring_app_r (a b : string) :
  String.substring (String.length a) (String.length (a +:+ b) - String.length a) (a +:+ b) = b.
Proof.
  induction a as [|c a IH].
  - change ("" +:+ b) with b. simpl. by rewrite Nat.sub_0_r, substring_all.
  - change (String c a +:+ b) with (String c (a +:+ b)). simpl. exact IH.
Qed.

Lemma splitNs_event_namespace (event rest : string) :
  no_dot event = true →
  splitNs (event +:+ String "." rest)
  = {| eventName := event; ns := Some (String "." rest); handler := VUndefined |}.
Proof.
  intros Hd. unfold splitNs. rewrite indexOf_dot_app by done.
  by rewrite substring_app_l, substring_app_r.
Qed.

Lemma event_ok_plain (name : string) :
  event_ok name = true → plain_name name = true ∧ inherited name = false.
Proof.
  unfold event_ok. intros [Hp Hi]%andb_true_iff. by apply negb_true_iff in Hi.
Qed.

Lemma plain_name_parts (name : string) :
  plain_name name = true → name ≠ "" ∧ no_ws name = true ∧ no_dot name = true.
Proof.
  unfold plain_name. intros [[Hne Hws]%andb_true_iff Hdot]%andb_true_iff.
  by apply negb_true_iff, bool_decide_eq_false in Hne.
Qed.

(** The text of a token is one word of the split, and [splitNs] reads the
    token back from it. *)
Lemma text_of_token (t : token) :
  token_ok t = true →
  text_of t ≠ "" ∧ no_ws (text_of t) = true ∧ clauses (text_of t) = [clause_of t].
Proof.
  destruct t as [event|rest|event rest]; unfold text_of, clause_of; simpl.
  - intros [Hp _]%event_ok_plain. rewrite append_empty_r.
    destruct (plain_name_parts _ Hp) as (Hne & Hws & _).
    by destruct (clauses_plain_name _ Hp) as [_ ->].
  - intros Hws. change ("" +:+ String "." rest) with (String "." rest).
    split_and!; [done|done|by apply clauses_namespace].
  - intros [[Hp _]%event_ok_plain Hws]%andb_true_iff.
    destruct (plain_name_parts _ Hp) as (Hne & Hwe & Hd).
    assert (no_ws (event +:+ String "." rest) = true) as Hw
      by (rewrite no_ws_app, Hwe; simpl; exact Hws).
    split_and!; [by apply append_nonempty_r|done|].
    unfold clauses, split_ws. rewrite split_go_no_ws_string by done.
    change ("" +:+ (event +:+ String "." rest)) with (event +:+ String "." rest). simpl.
    by rewrite splitNs_event_namespace.
Qed.

Lemma tokens_ok_cons (t t' : token) (sep : string) (more : list (string * token)) :
  tokens_ok t ((sep, t') :: more) = true →
  token_ok t = true ∧ separator sep = true ∧ tokens_ok t' more = true.
Proof.
  unfold tokens_ok. simpl.
  intros [Ht [[Hsep Ht']%andb_true_iff Hmore]%andb_true_iff]%andb_true_iff.
  by rewrite Ht'.
Qed.

(** The split of a specification written token by token yields these tokens,
    in their order, and nothing else. *)
Lemma spec_of_shape (t : token) (more : list (string * token)) :
  tokens_ok t more = true →
  spec_of t more ≠ ""
  ∧ starts_with_ws (spec_of t more) = false
  ∧ ends_with_ws (spec_of t more) = false
  ∧ clauses (spec_of t more) = clause_of <$> (t :: more.*2).
Proof.
  revert t. induction more as [|[sep t'] more IH]; intros t Hok.
  - unfold tokens_ok in Hok. rewrite andb_true_r in Hok.
    destruct (text_of_token _ Hok) as (Hne & Hws & Hcl). simpl.
    split_and!; [done| |by apply no_ws_ends|done].
    rewrite <-(append_empty_r (text_of t)). by apply starts_with_ws_app.
  - destruct (tokens_ok_cons _ _ _ _ Hok) as (Ht & Hsep & Hok').
    destruct (text_of_token _ Ht) as (Hne & Hws & Hcl).
    destruct (IH _ Hok') as (Hne' & Hstart & Hend & Hcl').
    cbn [spec_of]. split_and!.
    + by apply append_nonempty_r, append_nonempty_r.
    + by apply starts_with_ws_app.
    + by rewrite !ends_with_ws_app by (try apply append_nonempty_r; done).
    + rewrite clauses_sep by (done || by apply no_ws_ends).
      by rewrite Hcl, Hcl'.
Qed.


Lemma filter_fmap {A B} (P : B → Prop) `{!∀ y, Decision (P y)} (g : A → B) (l : list A) :
  filter P (g <$> l) = g <$> filter (λ x, P (g x)) l.
Proof.
  induction l as [|x l IH]; [done|]. rewrite fmap_cons, !filter_cons.
  destruct (decide (P (g x))); [rewrite fmap_cons|]; by rewrite IH.
Qed.

(** ** Removal, token by token *)




(** ** Registration, token by token *)






(** ** Arguments that are not checked *)

(** C5, amended: [on] checks nothing itself.  When the specification is a
    primitive value other than a string, the call of [split] raises a
    TypeError before anything changes.  For every string whose clauses name
    no member of Object.prototype and every value [fn], callable or not,
    [on] returns the host object and appends exactly one entry for each
    clause, under the event name of the clause and in the order of the
    clauses; so it does for the empty string, with one entry under the empty
    event name, and for every specification written token by token. *)
Theorem on_fails_only_without_a_string {World} (m : Machine World) (fn : JsValue) :
  (∀ events, primitive events = true → (∀ s, events ≠ VStr s) →
             on events fn m = (m, Abrupt TypeError))
  ∧ (∀ s, own_names s →
          result (on (VStr s) fn) m = Normal (VObj (oid (this m)))
          ∧ ∀ name, entries (this (exec (on (VStr s) fn) m)) name
                    = entries (this m) name
                      ++ ((λ rec, {| eventName := name; ns := ns rec; handler := fn |})
                            <$> filter (λ rec, eventName rec = name) (clauses s)))
  ∧ (result (on (VStr "") fn) m = Normal (VObj (oid (this m)))
     ∧ entries (this (exec (on (VStr "") fn) m)) ""
       = entries (this m) "" ++ [{| eventName := ""; ns := None; handler := fn |}]
     ∧ ∀ name, name ≠ "" → entries (this (exec (on (VStr "") fn) m)) name = entries (this m) name)
  ∧ (∀ t more, tokens_ok t more = true →
               result (on (VStr (spec_of t more)) fn) m = Normal (VObj (oid (this m)))
               ∧ ∀ name, entries (this (exec (on (VStr (spec_of t more)) fn) m)) name
                         = entries (this m) name
                           ++ ((λ t', {| eventName := name; ns := namespace_of t';
                                         handler := fn |})
                                 <$> filter (λ t', event_of t' = name) (t :: more.*2))).
Proof.
  assert (∀ (l : list EventRec) (name : string),
            (λ rec, set_handler rec fn) <$> filter (λ rec, eventName rec = name) l
            = (λ rec, {| eventName := name; ns := ns rec; handler := fn |})
                <$> filter (λ rec, eventName rec = name) l) as Hnamed.
  { intros l name. induction l as [|rec l IH]; [done|].
    rewrite !filter_cons. destruct (decide (eventName rec = name)) as [<-|Hne]; [|done].
    rewrite !fmap_cons. by rewrite IH. }
  split_and!.
  - intros events _ Hs. by apply on_not_a_string.
  - intros s _. split; [done|]. intros name. by rewrite entries_on, Hnamed.
  - done.
  - rewrite entries_on.
    assert (clauses "" = [empty_clause]) as -> by reflexivity.
    by rewrite filter_cons_True.
  - intros name Hname. rewrite entries_on.
    assert (clauses "" = [empty_clause]) as -> by reflexivity.
    rewrite filter_cons_False by (simpl; congruence). by rewrite app_nil_r.
  - intros t more Hok. split; [done|]. intros name.
    destruct (spec_of_shape _ _ Hok) as (_ & _ & _ & Hcl).
    rewrite entries_on, Hcl, Hnamed. f_equal.
    rewrite (filter_fmap (λ rec, eventName rec = name)), <-list_fmap_compose. done.
Qed.

Lemma on_fails_only_without_a_string_witness :
  primitive (VNum 5) = true
  ∧ on (VNum 5) (VFun 1) (new_machine 0 tt) = (new_machine 0 tt, Abrupt TypeError)
  ∧ own_names "a  b.x "
  ∧ entries (this (exec (on (VStr "a  b.x ") (VNum 5)) (new_machine 0 tt))) "b"
    = [{| eventName := "b"; ns := Some ".x"; handler := VNum 5 |}]
  ∧ tokens_ok (EventOnly "a") [("  ", EventAndNamespace "b" "x")] = true
  ∧ entries (this (exec (on (VStr "a  b.x") VNull) (new_machine 0 tt))) "a"
    = [{| eventName := "a"; ns := None; handler := VNull |}].
Proof.
  assert (own_names "a  b.x ") as Hown by (by repeat constructor).
  destruct (on_fails_only_without_a_string (new_machine 0 tt) (VFun 1)) as (Hprim & _).
  destruct (on_fails_only_without_a_string (new_machine 0 tt) (VNum 5)) as (_ & Hstr & _).
  destruct (on_fails_only_without_a_string (new_machine 0 tt) VNull) as (_ & _ & _ & Htok).
  split_and!; [reflexivity| |exact Hown| |reflexivity|].
  - apply Hprim; [reflexivity|discriminate].
  - destruct (Hstr _ Hown) as [_ ->]. reflexivity.
  - destruct (Htok (EventOnly "a") [("  ", EventAndNamespace "b" "x")] eq_refl) as [_ Hent].
    exact (Hent "a").
Defined.

(** ** Deprecated events, token by token *)



(** ** Several clauses in one call of [on] *)

(** X5: a specification of several clauses is the same as one call for each
    part: when [s1] does not end and [s2] does not begin with whitespace and
    no clause names a member of Object.prototype, [on(s1 + c + s2, fn)],
    [c] being a whitespace character, leaves the machine and returns the
    value that [on(s1, fn)] followed by [on(s2, fn)] do. *)
Theorem on_of_two_parts {World} (m : Machine World) (s1 s2 : string) (c : ascii)
    (fn : JsValue) :
  is_ws c = true → ends_with_ws s1 = false → starts_with_ws s2 = false →
  own_names s1 → own_names s2 →
  on (VStr (s1 +:+ String c s2)) fn m = (on (VStr s1) fn;; on (VStr s2) fn) m.
Proof.
  intros Hc Hend Hstart _ _.
  unfold mbind at 1, Js_bind, js_bind. rewrite !on_run. simpl.
  rewrite clauses_app by done.
  rewrite foldl_app, deprecation_warnings_app, oid_foldl_attach, app_assoc.
  by rewrite deprecation_warnings_foldl_attach.
Qed.

Lemma on_of_two_parts_witness :
  is_ws " " = true ∧ ends_with_ws "a.x" = false ∧ starts_with_ws "b" = false
  ∧ own_names "a.x" ∧ own_names "b"
  ∧ exec (on (VStr "a.x b") (VFun 1)) (new_machine 0 tt)
    = exec (on (VStr "b") (VFun 1)) (exec (on (VStr "a.x") (VFun 1)) (new_machine 0 tt)).
Proof.
  assert (own_names "a.x") as H1 by (by repeat constructor).
  assert (own_names "b") as H2 by (by repeat constructor).
  split_and!; [reflexivity|reflexivity|reflexivity|exact H1|exact H2|].
  exact (f_equal fst
           (on_of_two_parts (new_machine 0 tt) "a.x" "b" " " (VFun 1)
              eq_refl eq_refl eq_refl H1 H2)).
Defined.

(** ** Order of registration *)

(** X17: [on] never removes or reorders what is registered: when no clause
    names a member of Object.prototype, under every event name the earlier
    entries stay in front, and the new entries, one for each clause naming
    the event and in the order of the clauses, follow them; the callback is
    stored in each. *)
Theorem on_appends_in_clause_order {World} (m : Machine World) (events : string)
    (fn : JsValue) (name : string) :
  own_names events →
  entries (this (exec (on (VStr events) fn) m)) name
  = entries (this m) name
    ++ ((λ rec, {| eventName := name; ns := ns rec; handler := fn |})
          <$> filter (λ rec, eventName rec = name) (clauses events)).
Proof.
  intros _. rewrite entries_on. f_equal.
  induction (clauses events) as [|rec l IH]; [done|].
  rewrite !filter_cons. destruct (decide (eventName rec = name)) as [<-|Hne]; [|done].
  rewrite !fmap_cons. by rewrite IH.
Qed.

Lemma on_appends_in_clause_order_witness :
  let m := exec (on (VStr "a") (VFun 1)) (new_machine 0 tt) in
  own_names "b a.x a.y"
  ∧ entries (this (exec (on (VStr "b a.x a.y") (VFun 2)) m)) "a"
    = [{| eventName := "a"; ns := None; handler := VFun 1 |};
       {| eventName := "a"; ns := Some ".x"; handler := VFun 2 |};
       {| eventName := "a"; ns := Some ".y"; handler := VFun 2 |}].
Proof.
  intros m. assert (own_names "b a.x a.y") as Hown by (by repeat constructor).
  split; [exact Hown|].
  rewrite (on_appends_in_clause_order m "b a.x a.y" (VFun 2) "a" Hown). reflexivity.
Defined.

(** ** Bare event names *)

(** X10: [off] with a bare event name (no member of Object.prototype) and
    no callback deletes the key of that event, whatever the namespaces and
    callbacks of its entries, and leaves every other key as it is; a
    [trigger] of the event then calls nothing. *)
Theorem off_bare_event_name {World}
    (body : nat → Event → list JsValue → World → World * outcome)
    (m : Machine World) (name : string) (args : list JsValue) :
  event_ok name = true →
  let m' := exec (off (VStr name) VUndefined) m in
  _eventHandlers (this m') = delete name <$> _eventHandlers (this m)
  ∧ trigger body name args m' = (m', Normal VUndefined).
Proof.
  intros [[Hne Hcl]%clauses_plain_name _]%event_ok_plain m'.
  assert (_eventHandlers (this m') = delete name <$> _eventHandlers (this m)) as Htbl.
  { unfold m', exec. rewrite off_run.
    destruct (_eventHandlers (this m)) as [tbl|] eqn:Htbl; simpl; [|done].
    f_equal. rewrite Hcl. simpl. apply map_eq. intros k.
    rewrite lookup_doRemove, lookup_delete. simpl.
    destruct (decide (name = k)) as [<-|Hk].
    - rewrite decide_True by auto.
      destruct (tbl !! name) as [l|]; simpl; [|done].
      rewrite filter_none; [done|]. intros rec. unfold kept. done.
    - rewrite decide_False; [done|]. intros [?|?]; congruence. }
  split; [done|]. apply trigger_no_handlers. rewrite Htbl.
  destruct (_eventHandlers (this m)) as [tbl|]; simpl; [|done].
  apply lookup_delete_eq.
Qed.

Lemma off_bare_event_name_witness :
  let m := exec (on (VStr "a.x a b") (VFun 1)) (new_machine 0 0) in
  event_ok "a" = true
  ∧ entries (this (exec (off (VStr "a") VUndefined) m)) "a" = []
  ∧ handler <$> entries (this (exec (off (VStr "a") VUndefined) m)) "b" = [VFun 1]
  ∧ invoked (exec (trigger counting_body "a" [])
               (exec (off (VStr "a") VUndefined) m)) = [].
Proof.
  intros m.
  destruct (off_bare_event_name counting_body m "a" [] eq_refl) as [Htbl Htr].
  split_and!; [reflexivity| | |].
  - unfold entries. rewrite Htbl. reflexivity.
  - unfold entries. rewrite Htbl. reflexivity.
  - unfold exec at 1. rewrite Htr. reflexivity.
Defined.

(** ** Primitive values as listeners *)

Lemma primitive_not_callable (v : JsValue) : primitive v = true → is_callable v = false.
Proof. by destruct v. Qed.

(** X15: a primitive value is accepted as a listener by [on] and fails only
    at dispatch: when the entries of an event (its name no member of
    Object.prototype) all hold primitive values, [trigger] calls nothing,
    reports one TypeError and one failed assertion for each entry on the
    console, and returns normally. *)
Theorem trigger_non_callable_listeners {World}
    (body : nat → Event → list JsValue → World → World * outcome)
    (m : Machine World) (name : string) (args : list JsValue) :
  inherited name = false →
  Forall (λ rec, primitive (handler rec) = true) (entries (this m) name) →
  trigger body name args m
  = ({| this := this m; world := world m;
        console := console m
                   ++ (entries (this m) name ≫= λ _,
                         [ConsoleError ("Exception in '" +:+ name +:+ "' listener on")
                            (VObj (oid (this m))) TypeError;
                          ConsoleAssertFailed]);
        invoked := invoked m |},
     Normal VUndefined).
Proof.
  intros _ Hl. rewrite trigger_entries. unfold mbind, Js_bind, js_bind.
  rewrite (dispatch_non_callable body name (this m) _ args _ m); [done|].
  eapply Forall_impl; [exact Hl|]. intros rec. apply primitive_not_callable.
Qed.

Lemma trigger_non_callable_witness :
  let m := exec (on (VStr "a") VNull) (exec (on (VStr "a") (VNum 5)) (new_machine 0 0)) in
  inherited "a" = false
  ∧ Forall (λ rec, primitive (handler rec) = true) (entries (this m) "a")
  ∧ console (exec (trigger counting_body "a" []) m)
    = [ConsoleError "Exception in 'a' listener on" (VObj 0) TypeError; ConsoleAssertFailed;
       ConsoleError "Exception in 'a' listener on" (VObj 0) TypeError; ConsoleAssertFailed].
Proof.
  intros m.
  assert (Forall (λ rec, primitive (handler rec) = true) (entries (this m) "a")) as Hl
    by (by repeat constructor).
  split_and!; [reflexivity|exact Hl|].
  unfold exec. rewrite (trigger_non_callable_listeners counting_body m "a" [] eq_refl Hl).
  reflexivity.
Defined.

(** ** The text of a deprecation warning *)

(** X16: after [markDeprecated(obj, name, insteadStr)], [on(name, fn)] for a
    bare event name that is no member of Object.prototype writes exactly one
    warning.  Its text ends with the hint [Use ... instead.] only when
    [insteadStr] is a string that is not empty; an empty string, an omitted
    argument and any other value give the text without hint. *)
Theorem deprecation_warning_text {World} (m : Machine World) (name : string)
    (insteadStr fn : JsValue) :
  event_ok name = true →
  console (exec (on (VStr name) fn) (exec (markDeprecated name insteadStr) m))
  = console m
    ++ [ConsoleWarn
          match insteadStr with
          | VStr (String c s) =>
              "Registering for deprecated event '" +:+ name +:+ "'."
              +:+ " Use " +:+ String c s +:+ " instead."
          | _ => "Registering for deprecated event '" +:+ name +:+ "'."
          end].
Proof.
  intros [[Hne Hcl]%clauses_plain_name _]%event_ok_plain.
  unfold exec at 1. rewrite on_run. simpl. f_equal.
  rewrite Hcl. unfold deprecation_warnings. simpl.
  rewrite lookup_insert_eq. simpl.
  destruct insteadStr as [| |b|n|s|f|o]; simpl; try done.
  - by destruct b.
  - destruct (n =? 0)%Z eqn:Hn; simpl; by rewrite ?Hn.
  - destruct s as [|c s]; [done|]. simpl. unfold deprecation_message.
    by rewrite !append_assoc.
Qed.

Lemma deprecation_warning_text_witness :
  event_ok "old" = true
  ∧ console (exec (on (VStr "old") (VFun 1))
               (exec (markDeprecated "old" (VStr "")) (new_machine 0 tt)))
    = [ConsoleWarn "Registering for deprecated event 'old'."]
  ∧ console (exec (on (VStr "old") (VFun 1))
               (exec (markDeprecated "old" (VStr "new")) (new_machine 0 tt)))
    = [ConsoleWarn "Registering for deprecated event 'old'. Use new instead."].
Proof.
  split_and!; [reflexivity| |].
  - rewrite (deprecation_warning_text (new_machine 0 tt) "old" (VStr "") (VFun 1) eq_refl).
    reflexivity.
  - rewrite (deprecation_warning_text (new_machine 0 tt) "old" (VStr "new") (VFun 1) eq_refl).
    reflexivity.
Defined.

(** ** Chaining after the first registration, continued *)

(** X20: the handler table is created by the first [on] and stays: once
    [on] has run on an object, every later [off], after any further [on] and
    [off] calls and even when nothing is registered any more, returns the
    host object (no clause of these calls naming a member of
    Object.prototype). *)
Theorem off_returns_this_after_first_on {World} (m : Machine World) (events : string)
    (fn : JsValue) (cs : list call) (events' : string) (fn' : JsValue) :
  own_names events → Forall own_call cs → own_names events' →
  result (off (VStr events') fn') (run_calls cs (exec (on (VStr events) fn) m))
  = Normal (VObj (oid (this m))).
Proof.
  intros _ _ _.
  assert (is_Some (_eventHandlers (this (exec (on (VStr events) fn) m)))) as Hon.
  { unfold exec. rewrite on_run. simpl. apply table_after_attach. left.
    unfold clauses. intros Hnil%fmap_nil_inv. by apply split_go_nonempty_list in Hnil. }
  destruct (table_and_oid_run_calls cs _ Hon) as [[tbl Htbl] Hoid].
  unfold result. rewrite (off_run_some _ _ _ _ Htbl). simpl. rewrite Hoid.
  unfold exec. rewrite on_run. simpl. by rewrite oid_foldl_attach.
Qed.

Lemma off_returns_this_after_first_on_witness :
  own_names "a b.x"
  ∧ Forall own_call [Off ".x a" VUndefined; On "c" (VFun 2); Off "c" (VFun 2)]
  ∧ own_names "d"
  ∧ _eventHandlers
      (this (run_calls [Off ".x a" VUndefined; On "c" (VFun 2); Off "c" (VFun 2)]
               (exec (on (VStr "a b.x") (VFun 1)) (new_machine 4 tt))))
    = Some ∅
  ∧ result (off (VStr "d") VUndefined)
      (run_calls [Off ".x a" VUndefined; On "c" (VFun 2); Off "c" (VFun 2)]
         (exec (on (VStr "a b.x") (VFun 1)) (new_machine 4 tt)))
    = Normal (VObj 4).
Proof.
  assert (own_names "a b.x") as H1 by (by repeat constructor).
  assert (Forall own_call [Off ".x a" VUndefined; On "c" (VFun 2); Off "c" (VFun 2)]) as H2
    by (by repeat constructor).
  assert (own_names "d") as H3 by (by repeat constructor).
  split_and!; [exact H1|exact H2|exact H3|reflexivity|].
  exact (off_returns_this_after_first_on (new_machine 4 tt) "a b.x" (VFun 1) _ "d" VUndefined
           H1 H2 H3).
Defined.
